(** * synapse.util: glob patterns and declarative route registration

    A shallow embedding of [synapse/util/__init__.py]:
    [glob_to_regex], [transform_path], [do_register], [register_proxy]
    and [servelet], together with the part of Python's [re] module
    that those functions drive.

    Python [str] values are modelled by [string]; a character is read
    as the code point of the same number, so the model covers the
    strings of code points below 256. *)

From Stdlib Require Import Ascii String List Bool Arith Lia.
From stdpp Require Import gmap strings list fin_maps.

Open Scope string_scope.
Open Scope nat_scope.
Open Scope list_scope.

(** ** Characters *)

Module Chr.

Definition ord (c : ascii) : nat := nat_of_ascii c.

Definition between (lo hi : nat) (c : ascii) : bool :=
  (lo <=? ord c) && (ord c <=? hi).

Definition is_digit (c : ascii) : bool := between 48 57 c.

Definition is_ascii_letter (c : ascii) : bool :=
  between 65 90 c || between 97 122 c.

(** [\w] of a [str] pattern: the alphanumeric code points and the
    underscore.  Above 127 these are the letters and number signs of
    the Latin-1 block. *)
Definition is_word (c : ascii) : bool :=
  is_digit c || is_ascii_letter c || (ord c =? 95)
  || (ord c =? 170) || (ord c =? 178) || (ord c =? 179) || (ord c =? 181)
  || (ord c =? 185) || (ord c =? 186) || between 188 190 c
  || between 192 214 c || between 216 246 c || between 248 255 c.

(** Lower-casing as the matcher applies it under [re.IGNORECASE]. *)
Definition lower (c : ascii) : ascii :=
  if between 65 90 c || between 192 214 c || between 216 222 c
  then ascii_of_nat (ord c + 32)
  else c.

Definition eqb_fold (ignorecase : bool) (a b : ascii) : bool :=
  if ignorecase then Ascii.eqb (lower a) (lower b) else Ascii.eqb a b.

Definition newline : ascii := ascii_of_nat 10.

End Chr.

(** ** The pattern language

    The code of a compiled pattern is a flat list of operations, as in
    the [re] module: a group is a pair of position marks, group [g]
    owning the marks [2 * (g - 1)] and [2 * (g - 1) + 1]. *)

Inductive charset : Type :=
| CLiteral (c : ascii)          (* one given character *)
| CAny                          (* "." : anything but a newline *)
| CNotIn (cs : list ascii)      (* "[^...]" *)
| CWord.                        (* "\w" *)

Inductive op : Type :=
| One (cs : charset)
| Repeat (min : nat) (cs : charset)   (* greedy "cs*" (min 0), "cs+" (min 1) *)
| AtBeginning                          (* "\A" *)
| AtEnd                                (* "\Z" *)
| Mark (i : nat).

Record Pattern : Type := mkPattern {
  pat_ignorecase : bool;
  pat_code : list op;
  pat_groups : nat;
  pat_groupindex : list (list ascii * nat)
}.

Definition charset_match (ic : bool) (cs : charset) (c : ascii) : bool :=
  match cs with
  | CLiteral a => Chr.eqb_fold ic a c
  | CAny => negb (Ascii.eqb c Chr.newline)
  | CNotIn l => negb (existsb (fun a => Chr.eqb_fold ic a c) l)
  | CWord => Chr.is_word c
  end.

(** ** The matcher

    A backtracking matcher in continuation style.  [pos] is the index
    of the first character of [s] in the subject; marks are kept
    latest first. *)

Definition marks := list (nat * nat).

Section Matcher.
Context {R : Type}.

(** Greedy repetition of a one-character test: take as many
    characters as possible, give back one at a time while the rest of
    the pattern fails. *)
Fixpoint repeat_one (ok : ascii -> bool) (k : nat -> list ascii -> option R)
    (min : nat) (pos : nat) (s : list ascii) : option R :=
  let stop := match min with O => k pos s | S _ => None end in
  match s with
  | c :: s' =>
      if ok c then
        match repeat_one ok k (Nat.pred min) (S pos) s' with
        | Some r => Some r
        | None => stop
        end
      else stop
  | [] => stop
  end.

Fixpoint run (ic : bool) (code : list op)
    (final : nat -> list ascii -> marks -> option R)
    (pos : nat) (s : list ascii) (m : marks) : option R :=
  match code with
  | [] => final pos s m
  | One cs :: code' =>
      match s with
      | c :: s' =>
          if charset_match ic cs c then run ic code' final (S pos) s' m
          else None
      | [] => None
      end
  | Repeat min cs :: code' =>
      repeat_one (charset_match ic cs)
        (fun pos' s' => run ic code' final pos' s' m) min pos s
  | AtBeginning :: code' =>
      if pos =? 0 then run ic code' final pos s m else None
  | AtEnd :: code' =>
      match s with
      | [] => run ic code' final pos s m
      | _ :: _ => None
      end
  | Mark i :: code' => run ic code' final pos s ((i, pos) :: m)
  end.
End Matcher.

(** A successful match: where it ends and the marks it set. *)
Record Match : Type := mkMatch {
  m_string : list ascii;
  m_start : nat;
  m_end : nat;
  m_marks : marks;
  m_groupindex : list (list ascii * nat)
}.

Fixpoint mark_lookup (i : nat) (m : marks) : option nat :=
  match m with
  | [] => None
  | (j, p) :: m' => if i =? j then Some p else mark_lookup i m'
  end.

(** [Pattern.match(string, pos)] restricted to the suffix [s] of
    [subject] that starts at [pos]. *)
Definition match_at (p : Pattern) (subject : list ascii) (pos : nat)
    (s : list ascii) : option Match :=
  run (pat_ignorecase p) (pat_code p)
      (fun e _ m => Some (mkMatch subject pos e m (pat_groupindex p)))
      pos s [].

Definition fullmatch_at (p : Pattern) (subject : list ascii) : option Match :=
  run (pat_ignorecase p) (pat_code p)
      (fun e rest m =>
         match rest with
         | [] => Some (mkMatch subject 0 e m (pat_groupindex p))
         | _ :: _ => None
         end)
      0 subject [].

(** [Match.group(g)] for a group number [g >= 1]; [None] when the
    group took no part in the match. *)
Definition group_num (mt : Match) (g : nat) : option (list ascii) :=
  match mark_lookup (2 * (g - 1)) (m_marks mt),
        mark_lookup (2 * (g - 1) + 1) (m_marks mt) with
  | Some b, Some e => Some (take (e - b) (drop b (m_string mt)))
  | _, _ => None
  end.

Fixpoint groupindex_lookup (name : list ascii) (gi : list (list ascii * nat))
    : option nat :=
  match gi with
  | [] => None
  | (n, g) :: gi' =>
      if decide (n = name) then Some g else groupindex_lookup name gi'
  end.

Definition group_named (mt : Match) (name : list ascii) : option (list ascii) :=
  match groupindex_lookup name (m_groupindex mt) with
  | Some g => group_num mt g
  | None => None
  end.

(** ** Compiling a pattern ([re.compile])

    The parser covers the syntax that this module writes: literal
    characters, backslash escapes of non-alphanumeric characters,
    [\A], [\Z], [\w], [.], negated sets [[^...]] of plain characters,
    capturing groups, named groups [(?P<name>...)] and the greedy
    quantifiers [*] and [+] after a one-character item.  It answers
    [None] where Python raises [re.error] and also on the syntax left
    out (alternation, [?], counted repeats, quantified groups, [^],
    [$], the other escapes and sets). *)

Module Parse.

Fixpoint span (f : ascii -> bool) (s : list ascii) : list ascii * list ascii :=
  match s with
  | c :: s' =>
      if f c then let (a, b) := span f s' in (c :: a, b) else ([], s)
  | [] => ([], [])
  end.

Definition is_char (a : ascii) (c : ascii) : bool := Ascii.eqb a c.

(** [str.isidentifier], which [re] applies to a group name. *)
Definition is_id_start (c : ascii) : bool :=
  Chr.is_ascii_letter c || (Chr.ord c =? 95) || (Chr.ord c =? 170)
  || (Chr.ord c =? 181) || (Chr.ord c =? 186) || Chr.between 192 214 c
  || Chr.between 216 246 c || Chr.between 248 255 c.

Definition is_id_continue (c : ascii) : bool :=
  is_id_start c || Chr.is_digit c || (Chr.ord c =? 183).

Definition is_identifier (name : list ascii) : bool :=
  match name with
  | [] => false
  | c :: name' => is_id_start c && forallb is_id_continue name'
  end.

(** Does the text after an opening brace complete a counted repeat
    [{m}], [{m,}], [{,n}], [{m,n}]?  (An empty pair of braces does not.) *)
Definition is_repeat_brace (rest : list ascii) : bool :=
  match rest with
  | "}"%char :: _ => false
  | _ =>
      let r1 := snd (span Chr.is_digit rest) in
      let r2 := match r1 with
                | ","%char :: r => snd (span Chr.is_digit r)
                | _ => r1
                end in
      match r2 with
      | "}"%char :: _ => true
      | _ => false
      end
  end.

Definition plain_in_set (c : ascii) : bool :=
  negb (is_char "\" c || is_char "-" c || is_char "[" c).

Inductive token : Type :=
| TOp (o : op)
| TQuant (min : nat)
| TOpen (name : option (list ascii))
| TClose.

(** The token that starts with character [c], followed by [rest], and
    the number of characters of [rest] that belong to it. *)
Definition lex (c : ascii) (rest : list ascii) : option (token * nat) :=
  if is_char "\" c then
    match rest with
    | [] => None
    | d :: _ =>
        if is_char "A" d then Some (TOp AtBeginning, 1)
        else if is_char "Z" d then Some (TOp AtEnd, 1)
        else if is_char "w" d then Some (TOp (One CWord), 1)
        else if Chr.is_digit d || Chr.is_ascii_letter d then None
        else Some (TOp (One (CLiteral d)), 1)
    end
  else if is_char "." c then Some (TOp (One CAny), 0)
  else if is_char "[" c then
    match rest with
    | "^"%char :: body =>
        let (items, after) := span (fun x => negb (is_char "]" x)) body in
        match items, after with
        | _ :: _, "]"%char :: _ =>
            if forallb plain_in_set items
            then Some (TOp (One (CNotIn items)), 2 + length items)
            else None
        | _, _ => None
        end
    | _ => None
    end
  else if is_char "*" c then Some (TQuant 0, 0)
  else if is_char "+" c then Some (TQuant 1, 0)
  else if is_char "?" c || is_char "|" c || is_char "^" c || is_char "$" c
  then None
  else if is_char "{" c then
    if is_repeat_brace rest then None else Some (TOp (One (CLiteral c)), 0)
  else if is_char "(" c then
    match rest with
    | "?"%char :: "P"%char :: "<"%char :: r =>
        let (name, after) := span (fun x => negb (is_char ">" x)) r in
        match after with
        | ">"%char :: _ =>
            if is_identifier name
            then Some (TOpen (Some name), 4 + length name)
            else None
        | _ => None
        end
    | "?"%char :: _ => None
    | _ => Some (TOpen None, 0)
    end
  else if is_char ")" c then Some (TClose, 0)
  else Some (TOp (One (CLiteral c)), 0).

(** Parser state: the code written so far (latest first), the number
    of groups opened, the groups still open and the group names. *)
Record state : Type := mkState {
  st_code : list op;
  st_groups : nat;
  st_open : list nat;
  st_names : list (list ascii * nat)
}.

Definition init : state := mkState [] 0 [] [].

Definition has_name (name : list ascii) (names : list (list ascii * nat)) : bool :=
  existsb (fun e => bool_decide (fst e = name)) names.

Definition apply_token (t : token) (st : state) : option state :=
  match t with
  | TOp o => Some (mkState (o :: st_code st) (st_groups st) (st_open st) (st_names st))
  | TQuant min =>
      match st_code st with
      | One cs :: code' =>
          Some (mkState (Repeat min cs :: code') (st_groups st) (st_open st) (st_names st))
      | _ => None
      end
  | TOpen name =>
      let g := S (st_groups st) in
      let code := Mark (2 * (g - 1)) :: st_code st in
      match name with
      | None => Some (mkState code g (g :: st_open st) (st_names st))
      | Some n =>
          if has_name n (st_names st) then None
          else Some (mkState code g (g :: st_open st) (st_names st ++ [(n, g)]))
      end
  | TClose =>
      match st_open st with
      | g :: open' =>
          Some (mkState (Mark (2 * (g - 1) + 1) :: st_code st) (st_groups st) open' (st_names st))
      | [] => None
      end
  end.

(** One pass over the pattern; [skip] counts the characters that
    belong to the token read last. *)
Fixpoint loop (s : list ascii) (skip : nat) (st : state) : option state :=
  match s with
  | [] => Some st
  | c :: s' =>
      match skip with
      | S n => loop s' n st
      | O =>
          match lex c s' with
          | None => None
          | Some (t, extra) =>
              match apply_token t st with
              | None => None
              | Some st' => loop s' extra st'
              end
          end
      end
  end.

Definition finish (ignorecase : bool) (st : state) : option Pattern :=
  match st_open st with
  | [] => Some (mkPattern ignorecase (rev (st_code st)) (st_groups st) (st_names st))
  | _ :: _ => None
  end.

End Parse.

Definition re_compile (pattern : string) (ignorecase : bool) : option Pattern :=
  match Parse.loop (list_ascii_of_string pattern) 0 Parse.init with
  | Some st => Parse.finish ignorecase st
  | None => None
  end.

(** [re.escape] on one character: a backslash goes before the
    characters that are special in a pattern. *)
Definition re_special : list ascii :=
  list_ascii_of_string "()[]{}?*+-|^$\.&~# "
  ++ map ascii_of_nat [9; 10; 11; 12; 13].

Definition re_escape (c : ascii) : string :=
  if existsb (Ascii.eqb c) re_special
  then String "\" (String c EmptyString)
  else String c EmptyString.

(** The public matching functions, on [string]. *)
Definition re_fullmatch (p : Pattern) (s : string) : option Match :=
  fullmatch_at p (list_ascii_of_string s).

Definition re_match (p : Pattern) (s : string) : option Match :=
  match_at p (list_ascii_of_string s) 0 (list_ascii_of_string s).

Definition group (mt : Match) (name : string) : option string :=
  string_of_list_ascii <$> group_named mt (list_ascii_of_string name).

(** ** Substitution ([Pattern.sub])

    A replacement template is literal text with group references
    [\1] .. [\9]. *)

Inductive tpl_item : Type :=
| TLit (c : ascii)
| TGroup (g : nat).

Fixpoint parse_template (s : list ascii) : option (list tpl_item) :=
  match s with
  | [] => Some []
  | c :: s' =>
      if Parse.is_char "\" c then
        match s' with
        | d :: s'' =>
            if Chr.between 49 57 d
               && negb (match s'' with e :: _ => Chr.is_digit e | [] => false end)
            then (fun t => TGroup (Chr.ord d - 48) :: t) <$> parse_template s''
            else None
        | [] => None
        end
      else (fun t => TLit c :: t) <$> parse_template s'
  end.

Definition expand (tpl : list tpl_item) (mt : Match) : list ascii :=
  flat_map (fun it =>
              match it with
              | TLit c => [c]
              | TGroup g => default [] (group_num mt g)
              end) tpl.

(** Left to right, each match found at the first position where one
    starts; the scan resumes where the match ended.  An empty match is
    replaced too and the scan then steps over one character. *)
Fixpoint sub_loop (p : Pattern) (tpl : list tpl_item) (subject : list ascii)
    (pos : nat) (s : list ascii) (skip : nat) : list ascii :=
  match skip with
  | S n =>
      match s with
      | [] => []
      | _ :: s' => sub_loop p tpl subject (S pos) s' n
      end
  | O =>
      match match_at p subject pos s with
      | Some mt =>
          match s with
          | [] => expand tpl mt
          | c :: s' =>
              if m_end mt =? pos
              then expand tpl mt ++ c :: sub_loop p tpl subject (S pos) s' 0
              else expand tpl mt ++ sub_loop p tpl subject (S pos) s' (m_end mt - pos - 1)
          end
      | None =>
          match s with
          | [] => []
          | c :: s' => c :: sub_loop p tpl subject (S pos) s' 0
          end
      end
  end.

Definition pattern_sub (p : Pattern) (tpl : list tpl_item) (s : string) : string :=
  let subject := list_ascii_of_string s in
  string_of_list_ascii (sub_loop p tpl subject 0 subject 0).

(** ** glob_to_regex *)

(** The loop of [glob_to_regex]: [res] grows by the translation of
    each character of the glob. *)
Fixpoint glob_body (glob : string) (res : string) : string :=
  match glob with
  | EmptyString => res
  | String c glob' =>
      if Ascii.eqb c "*" then glob_body glob' (res +:+ ".*")
      else if Ascii.eqb c "?" then glob_body glob' (res +:+ ".")
      else glob_body glob' (res +:+ re_escape c)
  end.

Definition glob_to_regex (glob : string) : option Pattern :=
  let res := glob_body glob EmptyString in
  re_compile ("\A" +:+ res +:+ "\Z") true.

(** ** transform_path *)

(** The module constant [RE_SUGAR], compiled. *)
Definition RE_SUGAR : Pattern :=
  mkPattern false
    [One (CLiteral "{"); Mark 0; Repeat 1 CWord; Mark 1; One (CLiteral "}")]
    1 [].

(** The replacement template that [transform_path] passes to [sub],
    parsed. *)
Definition SUGAR_REPL : list tpl_item :=
  map TLit (list_ascii_of_string "(?P<") ++ [TGroup 1]
  ++ map TLit (list_ascii_of_string ">[^/]*)").

Definition transform_path (orig_path : string) : string :=
  pattern_sub RE_SUGAR SUGAR_REPL orig_path.

(** ** Objects, stores and effects *)

(** Option values. *)
Inductive pyval : Type :=
| VNone
| VBool (b : bool)
| VInt (n : Z)
| VStr (s : string).

(** A [dict] with string keys, as [**kwargs] builds it. *)
Abbreviation dict := (gmap string pyval).

Inductive exn : Type :=
| IndexError
| TypeError
| AttributeError
| OtherError (msg : string).

(** Object identities. *)
Definition ref := nat.

(** [self]: the instance and the name of its class,
    [self.__class__.__name__]. *)
Record instance : Type := mkInstance {
  self_id : nat;
  self_class_name : string
}.

(** The value of [client_patterns(path_regex, **kwargs)].  The
    function belongs to [synapse.rest.client.v2_alpha._base]; a call is
    kept as the pair of its arguments. *)
Inductive patterns : Type :=
| client_patterns (path_regex : string) (kwargs : dict).

(** One call [http_server.register_paths(method, patterns, handler,
    servlet_classname)]; the handler is a bound method, a function
    together with its instance. *)
Record call : Type := mkCall {
  c_method : string;
  c_patterns : patterns;
  c_handler : ref * instance;
  c_servlet : string
}.

(** The mutable objects: dicts by identity, and for each server the
    calls it received, oldest first. *)
Record store : Type := mkStore {
  dicts : gmap ref dict;
  servers : gmap nat (list call)
}.

(** Computations that change the store and may raise. *)
Definition M (A : Type) : Type := store -> store * (exn + A).

#[global] Instance M_ret : MRet M := fun A a st => (st, inr a).
#[global] Instance M_bind : MBind M := fun A B f m st =>
  match m st with
  | (st', inr a) => f a st'
  | (st', inl e) => (st', inl e)
  end.

Definition raise {A : Type} (e : exn) : M A := fun st => (st, inl e).

(** A [for] loop over a list. *)
Fixpoint for_each {A : Type} (xs : list A) (body : A -> M unit) : M unit :=
  match xs with
  | [] => mret tt
  | x :: xs' => body x ;; for_each xs' body
  end.

Definition dict_at (st : store) (r : ref) : dict := default ∅ (dicts st !! r).

Definition read_dict (r : ref) : M dict := fun st => (st, inr (dict_at st r)).

(** [d.setdefault(key, value)] on the dict object [r]. *)
Definition setdefault (key : string) (value : pyval) (d : dict) : dict :=
  match d !! key with
  | Some _ => d
  | None => <[key := value]> d
  end.

Definition dict_setdefault (r : ref) (key : string) (value : pyval) : M unit :=
  fun st =>
    (mkStore (<[r := setdefault key value (dict_at st r)]> (dicts st)) (servers st),
     inr tt).

(** A dict display makes a new object. *)
Definition new_dict (d : dict) : M ref :=
  fun st =>
    let r := fresh (dom (dicts st)) in
    (mkStore (<[r := d]> (dicts st)) (servers st), inr r).

Definition server_log (st : store) (http_server : nat) : list call :=
  default [] (servers st !! http_server).

Definition register_paths (http_server : nat) (method : string) (pats : patterns)
    (handler : ref * instance) (name : string) : M unit :=
  fun st =>
    (mkStore (dicts st)
       (<[http_server := server_log st http_server ++ [mkCall method pats handler name]]>
          (servers st)),
     inr tt).

(** ** Annotations *)

(** The objects found inside a tuple. *)
Inductive item : Type :=
| IStr (s : string)
| IDict (d : dict)
| IOther.

(** An element of a path sequence: a [str], a [tuple], or any other
    object. *)
Inductive path_aggregate : Type :=
| AStr (s : string)
| ATuple (xs : list item)
| AOther.

(** [PATH_ARG]: a [str], an iterable, or any other object. *)
Inductive path_arg : Type :=
| PStr (s : string)
| PIter (xs : list path_aggregate)
| POther.

(** The tuple [_on] that [_On] stores on a handler:
    [(on_method, path_arg, client_patterns_kwargs)], the last by
    reference. *)
Record on_attr : Type := mkOn {
  on_method : string;
  on_path : path_arg;
  on_kwargs : ref
}.

(** What a class body binds a name to: a function, with its [_on]
    attribute if it has one and its behaviour when called with
    [(self, http_server)]; [None]; or an object that cannot be
    called. *)
Inductive pyobject : Type :=
| Function (on : option on_attr) (code : instance -> nat -> M unit)
| PyNone
| Plain (on : option on_attr).

Abbreviation heap := (gmap ref pyobject).

Record class : Type := mkClass {
  cls_name : string;
  cls_dict : gmap string ref
}.

Definition callable (h : heap) (r : ref) : bool :=
  match h !! r with
  | Some (Function _ _) => true
  | _ => false
  end.

Definition get_on (h : heap) (r : ref) : option on_attr :=
  match h !! r with
  | Some (Function on _) => on
  | Some (Plain on) => on
  | _ => None
  end.

Definition hasattr_on (h : heap) (r : ref) : bool :=
  match get_on h r with Some _ => true | None => false end.

(** Calling an object with [(self, http_server)]. *)
Definition call_object (h : heap) (r : ref) (self : instance) (http_server : nat)
    : M unit :=
  match h !! r with
  | Some (Function _ code) => code self http_server
  | _ => raise TypeError
  end.

(** ** do_register *)

Definition do_register (cls : string) (http_server : nat) (http_method : string)
    (client_pattern : item) (client_pattern_kwargs : ref)
    (method : ref * instance) : M unit :=
  dict_setdefault client_pattern_kwargs "add_stopper" (VBool true) ;;
  path ← match client_pattern with
         | IStr p => mret (transform_path p)
         | _ => raise TypeError
         end ;
  kwargs ← read_dict client_pattern_kwargs ;
  register_paths http_server http_method (client_patterns path kwargs) method cls.

(** ** register_proxy *)

(** [t[i]] on a tuple. *)
Definition tuple_get (xs : list item) (i : nat) : M item :=
  match xs !! i with
  | Some x => mret x
  | None => raise IndexError
  end.

(** [{**a, **b}] where [a] is the dict object [base]. *)
Definition dict_merge (base : ref) (overrides : item) : M ref :=
  a ← read_dict base ;
  match overrides with
  | IDict b => new_dict (b ∪ a)
  | _ => raise TypeError
  end.

Section Registration.
(** The order in which a [set] hands out its elements. *)
Variable set_iter : gset ref -> list ref.

(** The body of the inner loop of [register]. *)
Definition register_aggregate (self : instance) (http_server : nat)
    (on : on_attr) (method : ref * instance)
    (path_aggregate : path_aggregate) : M unit :=
  match path_aggregate with
  | AStr p =>
      do_register (self_class_name self) http_server (on_method on)
        (IStr p) (on_kwargs on) method
  | ATuple t =>
      t0 ← tuple_get t 0 ;
      t1 ← tuple_get t 1 ;
      merged ← dict_merge (on_kwargs on) t1 ;
      do_register (self_class_name self) http_server (on_method on)
        t0 merged method
  | AOther => mret tt
  end.

(** The body of the outer loop of [register]. *)
Definition register_method (h : heap) (self : instance) (http_server : nat)
    (_method : ref) : M unit :=
  match get_on h _method with
  | None => raise AttributeError
  | Some on =>
      let method := (_method, self) in
      match on_path on with
      | PStr p =>
          do_register (self_class_name self) http_server (on_method on)
            (IStr p) (on_kwargs on) method
      | PIter xs =>
          for_each xs (register_aggregate self http_server on method)
      | POther => mret tt
      end
  end.

Definition register (h : heap) (methods : gset ref)
    (self : instance) (http_server : nat) : M unit :=
  for_each (set_iter methods) (register_method h self http_server).

Definition register_proxy (h : heap) (methods : gset ref)
    (orig_register : option ref) : instance -> nat -> M unit :=
  match orig_register with
  | None => register h methods
  | Some orig =>
      let bridge := fun self http_server =>
        register h methods self http_server ;;
        call_object h orig self http_server in
      bridge
  end.

(** ** servelet *)

(** The scan of [cls.__dict__]. *)
Definition collect_methods (h : heap) (cls : class) : gset ref :=
  foldr (fun '(name, method) methods =>
           if callable h method && hasattr_on h method
           then {[method]} ∪ methods
           else methods)
        ∅ (map_to_list (cls_dict cls)).

(** [cls.__dict__.get("register", None)] *)
Definition dict_get_register (h : heap) (cls : class) : option ref :=
  match cls_dict cls !! "register" with
  | Some r => match h !! r with Some PyNone => None | _ => Some r end
  | None => None
  end.

Definition servelet (h : heap) (cls : class) : heap * class :=
  let methods := collect_methods h cls in
  if 0 <? size methods then
    let f := register_proxy h methods (dict_get_register h cls) in
    let r := fresh (dom h) in
    (<[r := Function None f]> h,
     mkClass (cls_name cls) (<["register" := r]> (cls_dict cls)))
  else (h, cls).

End Registration.

(** * Vocabulary of the properties *)

(** ** Globs *)

(** A glob and the strings that it matches, as a relation; [any]
    tells which characters a wildcard accepts. *)
Inductive glob_matches (any : ascii -> bool) : list ascii -> list ascii -> Prop :=
| gm_end : glob_matches any [] []
| gm_star glob run rest :
    forallb any run = true ->
    glob_matches any glob rest ->
    glob_matches any ("*"%char :: glob) (run ++ rest)
| gm_question glob c rest :
    any c = true ->
    glob_matches any glob rest ->
    glob_matches any ("?"%char :: glob) (c :: rest)
| gm_char g glob c rest :
    g <> "*"%char -> g <> "?"%char ->
    Chr.lower g = Chr.lower c ->
    glob_matches any glob rest ->
    glob_matches any (g :: glob) (c :: rest).

Definition any_char (c : ascii) : bool := true.
Definition not_newline (c : ascii) : bool := negb (Ascii.eqb c Chr.newline).

(** The text and the operation that one glob character turns into. *)
Definition glob_text (c : ascii) : string :=
  if Ascii.eqb c "*" then ".*"
  else if Ascii.eqb c "?" then "."
  else re_escape c.

Definition glob_op (c : ascii) : op :=
  if Ascii.eqb c "*" then Repeat 0 CAny
  else if Ascii.eqb c "?" then One CAny
  else One (CLiteral c).

Definition push (o : op) (st : Parse.state) : Parse.state :=
  Parse.mkState (o :: Parse.st_code st) (Parse.st_groups st)
    (Parse.st_open st) (Parse.st_names st).

(** The pattern that [glob_to_regex] compiles. *)
Definition glob_pattern (glob : string) : Pattern :=
  mkPattern true
    (AtBeginning :: map glob_op (list_ascii_of_string glob) ++ [AtEnd]) 0 [].

(** ** Placeholders *)

(** The placeholder that starts a string, if there is one: an opening
    brace, one or more word characters, a closing brace. *)
Definition placeholder_at (s : list ascii) : option (list ascii) :=
  match s with
  | c :: t =>
      if Ascii.eqb "{" c then
        let (w, rest) := Parse.span Chr.is_word t in
        match w, rest with
        | _ :: _, d :: _ => if Ascii.eqb "}" d then Some w else None
        | _, _ => None
        end
      else None
  | [] => None
  end.

(** The text that replaces the placeholder named [w]. *)
Definition sugar_group (w : list ascii) : list ascii :=
  list_ascii_of_string "(?P<" ++ w ++ list_ascii_of_string ">[^/]*)".

(** The substitution of [transform_path], told without positions. *)
Fixpoint sugar_sub (s : list ascii) (skip : nat) : list ascii :=
  match skip with
  | S n => match s with [] => [] | _ :: s' => sugar_sub s' n end
  | O =>
      match placeholder_at s with
      | Some w =>
          match s with
          | [] => sugar_group w
          | _ :: s' => sugar_group w ++ sugar_sub s' (length w + 1)
          end
      | None =>
          match s with
          | [] => []
          | c :: s' => c :: sugar_sub s' 0
          end
      end
  end.

Definition not_slash (c : ascii) : bool := negb (Ascii.eqb c "/").

(** The pattern compiled from the replacement text for the name [n]. *)
Definition group_pattern (n : list ascii) : Pattern :=
  mkPattern false [Mark 0; Repeat 0 (CNotIn ["/"%char]); Mark 1] 1 [(n, 1)].

(** ** Registrations *)





Definition add_stopper (d : dict) : dict := setdefault "add_stopper" (VBool true) d.


(** The relation [P] holds between the store before and the store
    after a run of [m], however the run ends. *)
Definition preserves (P : store -> store -> Prop) {A : Type} (m : M A) : Prop :=
  forall st, P st (fst (m st)).

(** The log of a server only grows at its end. *)
Definition log_extends (srv : nat) (st st' : store) : Prop :=
  exists added, server_log st' srv = server_log st srv ++ added.

(** A dict keeps its keys and values, except that the key
    [add_stopper] may be added to it with the value [True]. *)
Definition dicts_kept (st st' : store) : Prop :=
  forall r d,
    dicts st !! r = Some d ->
    dicts st' !! r = Some d \/ dicts st' !! r = Some (add_stopper d).

(** A class with one handler, annotated [@on.get("rooms/{id}")]; its
    options dict is the object 7. *)
Definition example_handler : pyobject :=
  Function (Some (mkOn "GET" (PStr "rooms/{id}") 7)) (fun _ _ => mret tt).

Definition example_heap : heap := {[ 1 := example_handler ]}.

Definition example_class : class := mkClass "Foo" {[ "on_get" := 1 ]}.

Definition example_store : store := mkStore {[ 7 := ∅ ]} ∅.

Definition example_self : instance := mkInstance 0 "Foo".

(** The same class with a [register] method of its own, which
    registers one path by hand. *)
Definition example_own_register : instance -> nat -> M unit :=
  fun self http_server =>
    register_paths http_server "PUT" (client_patterns "^/manual$" ∅)
      (2, self) "Foo".

Definition example_heap_own : heap :=
  {[ 1 := example_handler; 2 := Function None example_own_register ]}.

Definition example_class_own : class :=
  mkClass "Foo" {[ "on_get" := 1; "register" := 2 ]}.


(** The elements of a path sequence that are neither a string nor a
    tuple. *)
Definition is_other (a : path_aggregate) : bool :=
  match a with
  | AOther => true
  | _ => false
  end.

(** A class without annotated handlers: a plain attribute and a
    [register] method of its own. *)
Definition example_plain_heap : heap :=
  {[ 3 := Plain None; 4 := Function None (fun _ _ => mret tt) ]}.

Definition example_plain_class : class :=
  mkClass "Bar" {[ "limit" := 3; "register" := 4 ]}.

(** A handler annotated [@on.put([("foo/{id}", {"x": 1})], x=0, y=2)];
    its options dict is the object 8. *)
Definition example_handler_pair : pyobject :=
  Function
    (Some (mkOn "PUT" (PIter [ATuple [IStr "foo/{id}"; IDict {[ "x" := VInt 1 ]}]]) 8))
    (fun _ _ => mret tt).


Definition example_class_two : class :=
  mkClass "Foo" {[ "on_get" := 1; "on_put" := 3; "register" := 2 ]}.

Definition example_store_two : store :=
  mkStore {[ 7 := ∅; 8 := {[ "x" := VInt 0; "y" := VInt 2 ]} ]} ∅.

(** The same class when its [register] attribute is not a function. *)
Definition example_heap_plain_register : heap :=
  {[ 1 := example_handler; 2 := Plain None; 3 := example_handler_pair ]}.

(** The same class before its second handler is annotated. *)
Definition example_heap_unannotated : heap :=
  {[ 1 := example_handler; 2 := Function None example_own_register;
     3 := Function None (fun _ _ => mret tt) ]}.

(** Three handlers; the second in the order of the set has a tuple of
    one element in the middle of its path sequence. *)
Definition example_heap_bad : heap :=
  {[ 1 := example_handler;
     3 := Function
            (Some (mkOn "GET" (PIter [AStr "a"; ATuple [IStr "b"]; AStr "c"]) 7))
            (fun _ _ => mret tt);
     4 := Function (Some (mkOn "POST" (PStr "d") 7)) (fun _ _ => mret tt) ]}.

(** ** Acceptance by a glob *)

(** [bool(glob_to_regex(glob).match(s))], the way a caller tests a
    string against a glob. *)
Definition glob_accepts (glob s : string) : bool :=
  match glob_to_regex glob with
  | Some p => match re_match p s with Some _ => true | None => false end
  | None => false
  end.

(** A string with its letters in lower case. *)
Definition casefold (s : string) : list ascii :=
  map Chr.lower (list_ascii_of_string s).

Definition is_wildcard (c : ascii) : bool := Ascii.eqb c "*" || Ascii.eqb c "?".

(** No placeholder starts anywhere in the text. *)
Definition no_placeholder (l : list ascii) : Prop :=
  forall a b, l = a ++ b -> placeholder_at b = None.

(** ** Templates as segments *)

(** A path template cut into its literal characters and its
    placeholders. *)
Inductive segment : Type :=
| SLit (c : ascii)
| SHole (name : list ascii).

Definition segment_text (x : segment) : list ascii :=
  match x with
  | SLit c => [c]
  | SHole n => "{"%char :: n ++ ["}"%char]
  end.

Definition template_text (segs : list segment) : string :=
  string_of_list_ascii (flat_map segment_text segs).

(** The characters that stand for themselves in a pattern wherever
    they are written. *)
Definition plain_char (c : ascii) : bool :=
  negb (existsb (Ascii.eqb c) (list_ascii_of_string ".\[{()*+?^$|")).

Definition hole_names (segs : list segment) : list (list ascii) :=
  flat_map (fun x => match x with SHole n => [n] | SLit _ => [] end) segs.

Definition wf_segment (x : segment) : Prop :=
  match x with
  | SLit c => plain_char c = true
  | SHole n => Parse.is_identifier n = true /\ forallb Chr.is_word n = true
  end.

(** Plain literal text, placeholder names that are identifiers, no
    name used twice. *)
Definition wf_template (segs : list segment) : Prop :=
  Forall wf_segment segs /\ NoDup (hole_names segs).

(** The paths that fill a template: each literal character as it is,
    each placeholder replaced by any run of characters other than
    ['/']. *)
Inductive fills : list segment -> list ascii -> Prop :=
| fills_nil : fills [] []
| fills_lit c segs s : fills segs s -> fills (SLit c :: segs) (c :: s)
| fills_hole n segs v s :
    forallb not_slash v = true -> fills segs s -> fills (SHole n :: segs) (v ++ s).

(** The code of the pattern of a template; [g] groups come before. *)
Fixpoint segs_code (g : nat) (segs : list segment) : list op :=
  match segs with
  | [] => []
  | SLit c :: segs' => One (CLiteral c) :: segs_code g segs'
  | SHole _ :: segs' =>
      Mark (2 * g) :: Repeat 0 (CNotIn ["/"%char]) :: Mark (2 * g + 1)
      :: segs_code (S g) segs'
  end.

Fixpoint segs_names (g : nat) (segs : list segment) : list (list ascii * nat) :=
  match segs with
  | [] => []
  | SLit _ :: segs' => segs_names g segs'
  | SHole n :: segs' => (n, S g) :: segs_names (S g) segs'
  end.

(** ** _On and on *)

(** [_On(on_method, path_arg, **client_patterns_kwargs)]: the keyword
    arguments arrive in a dict of their own; the marker keeps the three
    values that it will store on a method. *)
Definition _On (on_method : string) (path_arg : path_arg)
    (client_patterns_kwargs : dict) : M on_attr :=
  kwargs ← new_dict client_patterns_kwargs ;
  mret (mkOn on_method path_arg kwargs).

(** [marker(method)]: sets [method._on] and returns [method], the same
    object.  [None] when [method] is not a function of the heap. *)
Definition On_call (marker : on_attr) (method : ref) (h : heap) : option heap :=
  match h !! method with
  | Some (Function _ code) => Some (<[method := Function (Some marker) code]> h)
  | _ => None
  end.

Module on.

Definition get (path_arg : path_arg) (client_patterns_kwargs : dict) : M on_attr :=
  _On "GET" path_arg client_patterns_kwargs.

Definition post (path_arg : path_arg) (client_patterns_kwargs : dict) : M on_attr :=
  _On "POST" path_arg client_patterns_kwargs.

Definition put (path_arg : path_arg) (client_patterns_kwargs : dict) : M on_attr :=
  _On "PUT" path_arg client_patterns_kwargs.

Definition options (path_arg : path_arg) (client_patterns_kwargs : dict) : M on_attr :=
  _On "OPTIONS" path_arg client_patterns_kwargs.

Definition delete (path_arg : path_arg) (client_patterns_kwargs : dict) : M on_attr :=
  _On "DELETE" path_arg client_patterns_kwargs.

End on.

(** The five constructors of [on], each with its verb. *)
Definition on_constructors : list ((path_arg -> dict -> M on_attr) * string) :=
  [(on.get, "GET"); (on.post, "POST"); (on.put, "PUT");
   (on.options, "OPTIONS"); (on.delete, "DELETE")].

(** ** What a routine registers *)

(** The elements of a path sequence for which a registration is
    issued: a string, or a tuple that starts with a string and a
    dict. *)
Definition registrable (a : path_aggregate) : Prop :=
  match a with
  | AStr _ => True
  | ATuple (IStr _ :: IDict _ :: _) => True
  | _ => False
  end.

Definition registrable_path (p : path_arg) : Prop :=
  match p with
  | PStr _ => True
  | PIter xs => Forall registrable xs
  | POther => True
  end.

(** The calls that an element, a path argument and a handler give
    rise to when the annotation's options are [base]. *)
Definition aggregate_calls (self : instance) (on : on_attr)
    (method : ref * instance) (base : dict) (a : path_aggregate) : list call :=
  match a with
  | AStr p =>
      [mkCall (on_method on) (client_patterns (transform_path p) (add_stopper base))
         method (self_class_name self)]
  | ATuple (IStr p :: IDict ov :: _) =>
      [mkCall (on_method on)
         (client_patterns (transform_path p) (add_stopper (ov ∪ base)))
         method (self_class_name self)]
  | _ => []
  end.

Definition path_calls (self : instance) (on : on_attr)
    (method : ref * instance) (base : dict) : list call :=
  match on_path on with
  | PStr p => aggregate_calls self on method base (AStr p)
  | PIter xs => flat_map (aggregate_calls self on method base) xs
  | POther => []
  end.

Definition method_calls (h : heap) (self : instance) (st : store) (r : ref)
    : list call :=
  match get_on h r with
  | Some on => path_calls self on (r, self) (dict_at st (on_kwargs on))
  | None => []
  end.

(** Since the store [st0], the dicts have kept their contents up to
    the [add_stopper] default and only the log of [srv] has changed. *)
Definition follows (srv : nat) (st0 st : store) : Prop :=
  dicts_kept st0 st /\
  forall srv', srv' <> srv -> servers st !! srv' = servers st0 !! srv'.

(** The exception that a tuple raises when it does not start with a
    string and a dict. *)
Definition tuple_error (t : list item) : option exn :=
  match t with
  | [] => Some IndexError
  | x :: t' =>
      match t' with
      | [] => Some IndexError
      | y :: _ =>
          match x, y with
          | IStr _, IDict _ => None
          | _, _ => Some TypeError
          end
      end
  end.

(** The elements of a path sequence on which the loop does not
    raise: all but the tuples that do not start with a string and a
    dict. *)
Definition passes (a : path_aggregate) : Prop :=
  match a with
  | ATuple t => tuple_error t = None
  | _ => True
  end.

Definition passes_path (p : path_arg) : Prop :=
  match p with
  | PIter xs => Forall passes xs
  | _ => True
  end.

(** A handler is ready for registration in a store: it carries an
    annotation, no element of its path sequence raises, and its
    options dict is in the store. *)
Definition ready (h : heap) (st : store) (r : ref) : Prop :=
  exists on b,
    get_on h r = Some on /\ passes_path (on_path on) /\
    dicts st !! on_kwargs on = Some b.

(** * Properties *)

(** ** Strings and lists of characters *)

Lemma list_ascii_app (a b : string) :
  list_ascii_of_string (a +:+ b) = list_ascii_of_string a ++ list_ascii_of_string b.
Proof. induction a as [|c a IH]; simpl; [reflexivity | now rewrite IH]. Qed.

Lemma string_of_list_ascii_app (a b : list ascii) :
  string_of_list_ascii (a ++ b) = string_of_list_ascii a +:+ string_of_list_ascii b.
Proof. induction a as [|c a IH]; simpl; [reflexivity | now rewrite IH]. Qed.

(** ** The matcher *)

Section RepeatOne.
Context {R : Type}.
Variable ok : ascii -> bool.
Variable k : nat -> list ascii -> option R.

(** A repetition from zero succeeds exactly when the rest of the
    pattern succeeds after some run of accepted characters. *)
Lemma repeat_one_zero_Some (s : list ascii) (pos : nat) :
  is_Some (repeat_one ok k 0 pos s) <->
  exists run rest,
    s = run ++ rest /\ forallb ok run = true /\ is_Some (k (pos + length run) rest).
Proof.
  revert pos. induction s as [|c s IH]; intros pos; simpl.
  - split.
    + intros H. exists [], []. simpl. rewrite Nat.add_0_r. auto.
    + intros (run & rest & E & _ & H).
      symmetry in E. apply app_eq_nil in E as [-> ->].
      simpl in H. now rewrite Nat.add_0_r in H.
  - destruct (ok c) eqn:Hc.
    + split.
      * intros H.
        destruct (repeat_one ok k 0 (S pos) s) as [r|] eqn:E.
        -- assert (Hs : is_Some (repeat_one ok k 0 (S pos) s)) by (rewrite E; eauto).
           apply IH in Hs as (run & rest & -> & Hrun & Hk).
           exists (c :: run), rest. simpl. split; [reflexivity|]. split.
           ++ rewrite Hc. exact Hrun.
           ++ replace (pos + S (length run)) with (S pos + length run) by lia. auto.
        -- exists [], (c :: s). simpl. rewrite Nat.add_0_r. auto.
      * intros (run & rest & E & Hrun & Hk).
        destruct run as [|c' run]; simpl in *.
        -- subst rest. rewrite Nat.add_0_r in Hk.
           destruct (repeat_one ok k 0 (S pos) s); eauto.
        -- injection E as <- ->. apply andb_prop in Hrun as [_ Hrun].
           assert (Hs : is_Some (repeat_one ok k 0 (S pos) (run ++ rest))).
           { apply IH. exists run, rest. split; [reflexivity|]. split; [assumption|].
             replace (S pos + length run) with (pos + S (length run)) by lia. assumption. }
           destruct Hs as [r ->]. eauto.
    + split.
      * intros H. exists [], (c :: s). simpl. rewrite Nat.add_0_r. auto.
      * intros (run & rest & E & Hrun & Hk).
        destruct run as [|c' run]; simpl in *.
        -- subst rest. now rewrite Nat.add_0_r in Hk.
        -- injection E as <- ->. rewrite Hc in Hrun. discriminate.
Qed.

(** A greedy repetition takes the whole run of accepted characters
    when the rest of the pattern succeeds right after it. *)
Lemma repeat_one_greedy (w rest : list ascii) (min pos : nat) (r : R) :
  forallb ok w = true ->
  match rest with c :: _ => ok c = false | [] => True end ->
  min <= length w ->
  k (pos + length w) rest = Some r ->
  repeat_one ok k min pos (w ++ rest) = Some r.
Proof.
  revert min pos. induction w as [|c w IH]; intros min pos Hw Hrest Hmin Hk; simpl in *.
  - assert (min = 0) by lia. subst min. rewrite Nat.add_0_r in Hk.
    destruct rest as [|c rest]; simpl; [assumption|]. now rewrite Hrest.
  - apply andb_prop in Hw as [Hc Hw]. rewrite Hc.
    rewrite (IH (Nat.pred min) (S pos)); [reflexivity | assumption | assumption | lia |].
    replace (S pos + length w) with (pos + S (length w)) by lia. assumption.
Qed.
End RepeatOne.

(** ** glob_to_regex *)

Lemma glob_body_text (glob res : string) :
  list_ascii_of_string (glob_body glob res) =
  list_ascii_of_string res
  ++ flat_map (fun c => list_ascii_of_string (glob_text c)) (list_ascii_of_string glob).
Proof.
  revert res. induction glob as [|c glob IH]; intros res; simpl.
  - now rewrite app_nil_r.
  - unfold glob_text.
    destruct (Ascii.eqb c "*"); [|destruct (Ascii.eqb c "?")];
      rewrite IH, list_ascii_app, <- app_assoc; reflexivity.
Qed.

Lemma lex_escaped (c : ascii) (rest : list ascii) :
  existsb (Ascii.eqb c) re_special = true ->
  Parse.lex "\" (c :: rest) = Some (Parse.TOp (One (CLiteral c)), 1).
Proof.
  destruct c as [[] [] [] [] [] [] [] []]; intros H;
    solve [ vm_compute in H; discriminate H | reflexivity ].
Qed.

Lemma lex_plain (c : ascii) (rest : list ascii) :
  existsb (Ascii.eqb c) re_special = false ->
  Parse.lex c rest = Some (Parse.TOp (One (CLiteral c)), 0).
Proof.
  destruct c as [[] [] [] [] [] [] [] []]; intros H;
    solve [ vm_compute in H; discriminate H | reflexivity ].
Qed.

Lemma parse_glob_char (c : ascii) (rest : list ascii) (st : Parse.state) :
  Parse.loop (list_ascii_of_string (glob_text c) ++ rest) 0 st =
  Parse.loop rest 0 (push (glob_op c) st).
Proof.
  unfold glob_text, glob_op.
  destruct (Ascii.eqb c "*") eqn:Hstar; [reflexivity|].
  destruct (Ascii.eqb c "?") eqn:Hq; [reflexivity|].
  unfold re_escape.
  destruct (existsb (Ascii.eqb c) re_special) eqn:Hsp.
  - change (Parse.loop ("\"%char :: c :: rest) 0 st = Parse.loop rest 0 (push (One (CLiteral c)) st)).
    cbn [Parse.loop]. rewrite (lex_escaped c rest Hsp). reflexivity.
  - change (Parse.loop (c :: rest) 0 st = Parse.loop rest 0 (push (One (CLiteral c)) st)).
    cbn [Parse.loop]. rewrite (lex_plain c rest Hsp). reflexivity.
Qed.

Lemma parse_glob (g rest : list ascii) (st : Parse.state) :
  Parse.loop (flat_map (fun c => list_ascii_of_string (glob_text c)) g ++ rest) 0 st =
  Parse.loop rest 0
    (Parse.mkState (rev (map glob_op g) ++ Parse.st_code st) (Parse.st_groups st)
       (Parse.st_open st) (Parse.st_names st)).
Proof.
  revert st. induction g as [|c g IH]; intros st.
  - destruct st; reflexivity.
  - cbn [flat_map]. rewrite <- app_assoc, parse_glob_char, IH.
    cbn [map rev push Parse.st_code Parse.st_groups Parse.st_open Parse.st_names].
    now rewrite <- app_assoc.
Qed.

Lemma glob_to_regex_compiles (glob : string) :
  glob_to_regex glob = Some (glob_pattern glob).
Proof.
  unfold glob_to_regex, re_compile.
  rewrite !list_ascii_app, glob_body_text.
  change (list_ascii_of_string "\A") with ["\"%char; "A"%char].
  cbn [app list_ascii_of_string Parse.loop Parse.lex].
  change (Parse.lex "\" ("A"%char :: ?r)) with (Some (Parse.TOp AtBeginning, 1)).
  cbn [Parse.apply_token Parse.loop].
  rewrite parse_glob. cbn.
  rewrite rev_app_distr, rev_involutive. reflexivity.
Qed.

Lemma eqb_fold_lower (a c : ascii) :
  Chr.eqb_fold true a c = true <-> Chr.lower a = Chr.lower c.
Proof. unfold Chr.eqb_fold. apply Ascii.eqb_eq. Qed.

Section GlobInversion.
Variable any : ascii -> bool.

Lemma glob_matches_end_inv (s : list ascii) :
  glob_matches any [] s <-> s = [].
Proof.
  split; [inversion 1; reflexivity | intros ->; constructor].
Qed.

Lemma glob_matches_star_inv (glob s : list ascii) :
  glob_matches any ("*"%char :: glob) s <->
  exists run rest,
    s = run ++ rest /\ forallb any run = true /\ glob_matches any glob rest.
Proof.
  split.
  - inversion 1; subst; [eauto | congruence].
  - intros (run & rest & -> & Hrun & H). now constructor.
Qed.

Lemma glob_matches_question_inv (glob s : list ascii) :
  glob_matches any ("?"%char :: glob) s <->
  exists c rest, s = c :: rest /\ any c = true /\ glob_matches any glob rest.
Proof.
  split.
  - inversion 1; subst; [eauto | congruence].
  - intros (c & rest & -> & Hc & H). now constructor.
Qed.

Lemma glob_matches_char_inv (g : ascii) (glob s : list ascii) :
  g <> "*"%char -> g <> "?"%char ->
  glob_matches any (g :: glob) s <->
  exists c rest,
    s = c :: rest /\ Chr.lower g = Chr.lower c /\ glob_matches any glob rest.
Proof.
  intros Hs Hq. split.
  - inversion 1; subst; [congruence | congruence | eauto].
  - intros (c & rest & -> & Hc & H). now constructor.
Qed.
End GlobInversion.

Section RunGlob.
Context {R : Type}.
Variable final : nat -> list ascii -> marks -> option R.
Hypothesis final_at_end : forall e m, is_Some (final e [] m).

(** The compiled glob, after its [\A], succeeds on exactly the
    strings that the glob matches when wildcards stop at a newline. *)
Lemma run_glob (g : list ascii) (pos : nat) (s : list ascii) (m : marks) :
  is_Some (run true (map glob_op g ++ [AtEnd]) final pos s m) <->
  glob_matches not_newline g s.
Proof.
  revert pos s. induction g as [|c g IH]; intros pos s.
  - rewrite glob_matches_end_inv. destruct s as [|d s]; simpl.
    + split; [reflexivity | intros _; apply final_at_end].
    + split; [intros [x Hx]; discriminate | discriminate].
  - cbn [map app]. unfold glob_op at 1.
    destruct (Ascii.eqb c "*") eqn:Hstar.
    { apply Ascii.eqb_eq in Hstar as ->.
      rewrite glob_matches_star_inv. cbn [run].
      rewrite repeat_one_zero_Some.
      split; intros (w & rest & -> & Hw & H); exists w, rest;
        (split; [reflexivity|]); (split; [exact Hw|]);
        first [ exact (proj1 (IH _ _) H) | exact (proj2 (IH _ _) H) ]. }
    destruct (Ascii.eqb c "?") eqn:Hq.
    { apply Ascii.eqb_eq in Hq as ->.
      rewrite glob_matches_question_inv. cbn [run].
      destruct s as [|d s].
      - split; [intros [x Hx]; discriminate | intros (d & rest & E & _); discriminate].
      - change (charset_match true CAny d) with (not_newline d).
        destruct (not_newline d) eqn:Hd.
        + rewrite IH. split.
          * intros H. exists d, s. auto.
          * intros (d' & rest & E & _ & H). now injection E as <- <-.
        + split; [intros [x Hx]; discriminate|].
          intros (d' & rest & E & Hd' & _). injection E as <- <-. congruence. }
    apply Ascii.eqb_neq in Hstar, Hq.
    rewrite (glob_matches_char_inv _ _ _ _ Hstar Hq). cbn [run].
    destruct s as [|d s].
    + split; [intros [x Hx]; discriminate | intros (d & rest & E & _); discriminate].
    + cbn [charset_match].
      destruct (Chr.eqb_fold true c d) eqn:Hd.
      * apply eqb_fold_lower in Hd. rewrite IH. split.
        -- intros H. exists d, s. auto.
        -- intros (d' & rest & E & _ & H). now injection E as <- <-.
      * split; [intros [x Hx]; discriminate|].
        intros (d' & rest & E & Hd' & _). injection E as <- <-.
        apply eqb_fold_lower in Hd'. congruence.
Qed.
End RunGlob.

(** C10 (as amended).  For every glob, [glob_to_regex] returns a
    compiled, case-insensitive pattern; the pattern matches a string
    exactly when the whole string is matched by the glob with ['*']
    standing for a possibly empty run of characters other than the
    newline, ['?'] for one character other than the newline, and every
    other glob character for itself up to case; and it matches at no
    position other than the start of the subject. *)
Theorem glob_to_regex_matches (glob : string) :
  exists p,
    glob_to_regex glob = Some p /\
    pat_ignorecase p = true /\
    (forall s,
        is_Some (re_match p s) <->
        glob_matches not_newline (list_ascii_of_string glob) (list_ascii_of_string s)) /\
    (forall s,
        is_Some (re_fullmatch p s) <->
        glob_matches not_newline (list_ascii_of_string glob) (list_ascii_of_string s)) /\
    (forall subject pos s, pos <> 0 -> match_at p subject pos s = None).
Proof.
  exists (glob_pattern glob). split; [apply glob_to_regex_compiles|].
  split; [reflexivity|]. split; [|split].
  - intros s. unfold re_match, match_at, glob_pattern. cbn [pat_code pat_ignorecase run].
    cbn [Nat.eqb]. apply run_glob. intros e m. eauto.
  - intros s. unfold re_fullmatch, fullmatch_at, glob_pattern.
    cbn [pat_code pat_ignorecase run]. cbn [Nat.eqb]. apply run_glob. intros e m. eauto.
  - intros subject pos s Hpos. unfold match_at, glob_pattern.
    cbn [pat_code pat_ignorecase run].
    destruct pos; [congruence | reflexivity].
Qed.

(** C10, the claim as written, fails at a newline: the glob ["?"]
    should match the one-character string made of a newline, and the
    compiled pattern does not match it. *)
Lemma glob_question_rejects_newline :
  glob_matches any_char ["?"%char] [Chr.newline] /\
  exists p,
    glob_to_regex "?" = Some p /\
    re_fullmatch p (String Chr.newline EmptyString) = None /\
    re_match p (String Chr.newline EmptyString) = None.
Proof.
  split.
  - apply gm_question; [reflexivity | constructor].
  - eexists. split; [reflexivity|]. split; reflexivity.
Qed.

(** ** transform_path *)

Lemma span_spec (f : ascii -> bool) (s : list ascii) :
  s = fst (Parse.span f s) ++ snd (Parse.span f s) /\
  forallb f (fst (Parse.span f s)) = true /\
  match snd (Parse.span f s) with c :: _ => f c = false | [] => True end.
Proof.
  induction s as [|c s IH]; simpl; [auto|].
  destruct (f c) eqn:Hc.
  - destruct (Parse.span f s) as [a b]. simpl in *.
    destruct IH as (-> & Ha & Hb). rewrite Hc. auto.
  - simpl. rewrite Hc. auto.
Qed.

Lemma span_app (f : ascii -> bool) (w rest : list ascii) :
  forallb f w = true ->
  match rest with c :: _ => f c = false | [] => True end ->
  Parse.span f (w ++ rest) = (w, rest).
Proof.
  intros Hw Hrest. induction w as [|c w IH]; simpl in *.
  - destruct rest as [|c rest]; [reflexivity|]. simpl. now rewrite Hrest.
  - apply andb_prop in Hw as [Hc Hw]. now rewrite Hc, IH.
Qed.

Section RepeatBlocked.
Context {R : Type}.
Variable ok : ascii -> bool.
Variable k : nat -> list ascii -> option R.
Variable stopc : ascii.
Hypothesis k_needs : forall pos s, hd_error s <> Some stopc -> k pos s = None.
Hypothesis stopc_not_ok : ok stopc = false.

(** When the rest of the pattern wants a character that the
    repetition does not accept, and the run of accepted characters is
    not followed by it, the repetition fails. *)
Lemma repeat_one_blocked (w rest : list ascii) (min pos : nat) :
  forallb ok w = true ->
  hd_error rest <> Some stopc ->
  match rest with c :: _ => ok c = false | [] => True end ->
  repeat_one ok k min pos (w ++ rest) = None.
Proof.
  intros Hw Hhd Hrest. revert min pos.
  induction w as [|c w IH]; intros min pos; simpl in *.
  - destruct rest as [|c rest]; simpl.
    + destruct min; [now apply k_needs | reflexivity].
    + rewrite Hrest. destruct min; [now apply k_needs | reflexivity].
  - apply andb_prop in Hw as [Hc Hw]. rewrite Hc, (IH Hw).
    destruct min; [|reflexivity].
    apply k_needs. simpl. intros [= ->]. congruence.
Qed.
End RepeatBlocked.

(** The module constants are what Python makes of their source text. *)
Lemma RE_SUGAR_compiled : re_compile "{(\w+)}" false = Some RE_SUGAR.
Proof. reflexivity. Qed.

Lemma SUGAR_REPL_parsed :
  parse_template (list_ascii_of_string "(?P<\1>[^/]*)") = Some SUGAR_REPL.
Proof. reflexivity. Qed.

(** One attempt of [RE_SUGAR] at a position. *)
Lemma match_at_sugar (subject : list ascii) (pos : nat) (s : list ascii) :
  match_at RE_SUGAR subject pos s =
  match placeholder_at s with
  | Some w =>
      Some (mkMatch subject pos (pos + length w + 2)
              [(1, pos + 1 + length w); (0, pos + 1)] [])
  | None => None
  end.
Proof.
  unfold match_at, RE_SUGAR. cbn [pat_code pat_ignorecase pat_groupindex run].
  destruct s as [|c t]; [reflexivity|].
  cbn [charset_match Chr.eqb_fold placeholder_at].
  destruct (Ascii.eqb "{" c); [|reflexivity].
  pose proof (span_spec Chr.is_word t) as (Ht & Hw & Hrest).
  destruct (Parse.span Chr.is_word t) as [w rest]. cbn [fst snd] in *.
  rewrite Ht. clear Ht.
  assert (Hneeds : forall (p : nat) (s : list ascii),
             hd_error s <> Some "}"%char ->
             run false [Mark 1; One (CLiteral "}")]
               (fun e _ m => Some (mkMatch subject pos e m []))
               p s [(0, S pos)] = None).
  { intros p [|x s] H; [reflexivity|]. cbn [run charset_match Chr.eqb_fold].
    destruct (Ascii.eqb "}" x) eqn:E; [|reflexivity].
    apply Ascii.eqb_eq in E as <-. now elim H. }
  destruct rest as [|d rest].
  - transitivity (@None Match); [|now destruct w].
    apply repeat_one_blocked with (stopc := "}"%char);
      [exact Hneeds | reflexivity | exact Hw | discriminate | exact I].
  - destruct (Ascii.eqb "}" d) eqn:Hd.
    + apply Ascii.eqb_eq in Hd as <-.
      destruct w as [|a w]; [reflexivity|].
      apply repeat_one_greedy; [exact Hw | reflexivity | simpl; lia |].
      cbn [run charset_match Chr.eqb_fold]. simpl Ascii.eqb. cbv iota.
      f_equal. f_equal; [lia|]. repeat f_equal; lia.
    + transitivity (@None Match); [|now destruct w].
      apply repeat_one_blocked with (stopc := "}"%char);
        [exact Hneeds | reflexivity | exact Hw | | exact Hrest].
      simpl. intros [= ->]. simpl in Hd. discriminate.
Qed.

Lemma placeholder_at_shape (s w : list ascii) :
  placeholder_at s = Some w ->
  exists rest,
    s = "{"%char :: w ++ "}"%char :: rest /\ w <> [] /\ forallb Chr.is_word w = true.
Proof.
  destruct s as [|c t]; [discriminate|]. cbn [placeholder_at].
  destruct (Ascii.eqb "{" c) eqn:Hc; [|discriminate].
  apply Ascii.eqb_eq in Hc as <-.
  pose proof (span_spec Chr.is_word t) as (Ht & Hw & _).
  destruct (Parse.span Chr.is_word t) as [w' rest]. cbn [fst snd] in *.
  destruct w' as [|a w']; [discriminate|].
  destruct rest as [|d rest]; [discriminate|].
  destruct (Ascii.eqb "}" d) eqn:Hd; [|discriminate].
  apply Ascii.eqb_eq in Hd as <-. intros [= <-].
  exists rest. rewrite Ht. auto.
Qed.

Lemma placeholder_at_intro (w rest : list ascii) :
  w <> [] -> forallb Chr.is_word w = true ->
  placeholder_at ("{"%char :: w ++ "}"%char :: rest) = Some w.
Proof.
  intros Hne Hw. cbn [placeholder_at]. simpl Ascii.eqb. cbv iota.
  rewrite span_app; [|exact Hw|reflexivity].
  destruct w; [congruence|]. reflexivity.
Qed.

(** The replacement text of a match of [RE_SUGAR]. *)
Lemma expand_sugar (subject : list ascii) (pos : nat) (w rest : list ascii) :
  drop pos subject = "{"%char :: w ++ "}"%char :: rest ->
  expand SUGAR_REPL
    (mkMatch subject pos (pos + length w + 2)
       [(1, pos + 1 + length w); (0, pos + 1)] []) = sugar_group w.
Proof.
  intros Hdrop. unfold expand, SUGAR_REPL, sugar_group.
  rewrite !flat_map_app. cbn [flat_map map list_ascii_of_string app].
  unfold group_num. cbn [m_marks m_string mark_lookup Nat.sub Nat.mul Nat.add Nat.eqb].
  replace (pos + 1 + length w - (pos + 1)) with (length w) by lia.
  replace (drop (pos + 1) subject) with (w ++ "}"%char :: rest).
  - rewrite take_app_length. cbn [default]. now rewrite app_nil_r.
  - rewrite <- drop_drop, Hdrop. reflexivity.
Qed.

Lemma sub_loop_sugar (s subject : list ascii) (pos skip : nat) :
  drop pos subject = s ->
  sub_loop RE_SUGAR SUGAR_REPL subject pos s skip = sugar_sub s skip.
Proof.
  revert pos skip. induction s as [|c s IH]; intros pos skip Hdrop.
  - destruct skip; reflexivity.
  - assert (Hnext : drop (S pos) subject = s).
    { replace (S pos) with (pos + 1) by lia. now rewrite <- drop_drop, Hdrop. }
    destruct skip as [|n]; cbn [sub_loop sugar_sub].
    + rewrite match_at_sugar.
      destruct (placeholder_at (c :: s)) as [w|] eqn:Hp.
      * apply placeholder_at_shape in Hp as (rest & E & Hne & Hw).
        cbn [m_end].
        replace (pos + length w + 2 =? pos) with false
          by (symmetry; apply Nat.eqb_neq; lia).
        rewrite E in Hdrop. rewrite (expand_sugar _ _ _ _ Hdrop).
        replace (pos + length w + 2 - pos - 1) with (length w + 1) by lia.
        now rewrite IH.
      * now rewrite IH.
    + now apply IH.
Qed.

Lemma transform_path_sugar (orig_path : string) :
  transform_path orig_path =
  string_of_list_ascii (sugar_sub (list_ascii_of_string orig_path) 0).
Proof.
  unfold transform_path, pattern_sub. now rewrite sub_loop_sugar.
Qed.

Lemma sugar_sub_skip (a b : list ascii) :
  sugar_sub (a ++ b) (length a) = sugar_sub b 0.
Proof.
  induction a as [|c a IH]; [reflexivity|]. exact IH.
Qed.

(** A placeholder seen before an opening brace lies before it. *)
Lemma placeholder_at_before_brace (c : ascii) (l x : list ascii) :
  placeholder_at (c :: l ++ "{"%char :: x) = placeholder_at (c :: l).
Proof.
  cbn [placeholder_at]. destruct (Ascii.eqb "{" c); [|reflexivity].
  pose proof (span_spec Chr.is_word l) as (Hl & Hw & Hrest).
  destruct (Parse.span Chr.is_word l) as [w rest] eqn:Hspan. cbn [fst snd] in *.
  destruct rest as [|d rest].
  - rewrite app_nil_r in Hl. subst l.
    rewrite span_app; [|exact Hw|reflexivity].
    now destruct w.
  - rewrite Hl, <- app_assoc. cbn [app].
    rewrite span_app; [|exact Hw|exact Hrest]. reflexivity.
Qed.

Lemma sugar_sub_app_brace (l x : list ascii) (skip : nat) :
  skip <= length l ->
  sugar_sub (l ++ "{"%char :: x) skip =
  sugar_sub l skip ++ sugar_sub ("{"%char :: x) 0.
Proof.
  revert skip. induction l as [|c l IH]; intros skip Hskip.
  - simpl in Hskip. assert (skip = 0) by lia. subst skip. reflexivity.
  - destruct skip as [|n].
    + cbn [app sugar_sub]. rewrite placeholder_at_before_brace.
      destruct (placeholder_at (c :: l)) as [w|] eqn:Hp.
      * apply placeholder_at_shape in Hp as (rest & E & _ & _).
        injection E as _ E.
        rewrite IH, app_assoc; [reflexivity|].
        rewrite E, length_app. simpl. lia.
      * rewrite IH; [reflexivity | lia].
    + cbn [app sugar_sub]. apply IH. simpl in Hskip. lia.
Qed.

(** Each placeholder is replaced by a named group, and the text on
    either side is transformed on its own. *)
Lemma sugar_sub_placeholder (l w r : list ascii) :
  w <> [] -> forallb Chr.is_word w = true ->
  sugar_sub (l ++ "{"%char :: w ++ "}"%char :: r) 0 =
  sugar_sub l 0 ++ sugar_group w ++ sugar_sub r 0.
Proof.
  intros Hne Hw. rewrite sugar_sub_app_brace by lia. f_equal.
  cbn [sugar_sub]. rewrite placeholder_at_intro by assumption. f_equal.
  replace (w ++ "}"%char :: r) with ((w ++ ["}"%char]) ++ r)
    by (now rewrite <- app_assoc).
  replace (length w + 1) with (length (w ++ ["}"%char]))
    by (rewrite length_app; reflexivity).
  apply sugar_sub_skip.
Qed.

(** Text without an opening brace comes out as it went in. *)
Lemma sugar_sub_no_brace (l : list ascii) :
  forallb (fun c => negb (Ascii.eqb "{" c)) l = true ->
  sugar_sub l 0 = l.
Proof.
  induction l as [|c l IH]; [reflexivity|]. cbn [forallb].
  intros [Hc Hl]%andb_prop. apply negb_true_iff in Hc.
  cbn [sugar_sub placeholder_at]. rewrite Hc. now rewrite IH.
Qed.

(** *** The group that replaces a placeholder *)

Lemma parse_loop_skip (a b : list ascii) (st : Parse.state) :
  Parse.loop (a ++ b) (length a) st = Parse.loop b 0 st.
Proof. induction a as [|c a IH]; [reflexivity | exact IH]. Qed.

Lemma id_continue_not_gt (c : ascii) :
  Parse.is_id_continue c = true -> negb (Parse.is_char ">" c) = true.
Proof.
  intros H. destruct (Parse.is_char ">" c) eqn:E; [|reflexivity].
  apply Ascii.eqb_eq in E. subst c. vm_compute in H. discriminate H.
Qed.

Lemma identifier_no_gt (n : list ascii) :
  Parse.is_identifier n = true ->
  forallb (fun x => negb (Parse.is_char ">" x)) n = true.
Proof.
  destruct n as [|c n]; [discriminate|]. cbn [Parse.is_identifier forallb].
  intros [Hc Hn]%andb_prop. apply andb_true_intro. split.
  - apply id_continue_not_gt. unfold Parse.is_id_continue. now rewrite Hc.
  - clear Hc. induction n as [|d n IH]; [reflexivity|]. cbn [forallb] in *.
    apply andb_prop in Hn as [Hd Hn].
    rewrite (id_continue_not_gt _ Hd). now apply IH.
Qed.

Lemma parse_loop_token (c : ascii) (s : list ascii) (st st' : Parse.state)
    (t : Parse.token) (extra : nat) :
  Parse.lex c s = Some (t, extra) ->
  Parse.apply_token t st = Some st' ->
  Parse.loop (c :: s) 0 st = Parse.loop s extra st'.
Proof. intros Hl Ha. cbn [Parse.loop]. now rewrite Hl, Ha. Qed.

Lemma group_pattern_compiles (n : string) :
  Parse.is_identifier (list_ascii_of_string n) = true ->
  re_compile ("(?P<" +:+ n +:+ ">[^/]*)") false =
  Some (group_pattern (list_ascii_of_string n)).
Proof.
  intros Hid. unfold re_compile. rewrite !list_ascii_app.
  set (name := list_ascii_of_string n) in *.
  set (tail := ["["%char; "^"%char; "/"%char; "]"%char; "*"%char; ")"%char]).
  set (pre := ["?"%char; "P"%char; "<"%char] ++ name ++ [">"%char]).
  replace (list_ascii_of_string "(?P<" ++ name ++ list_ascii_of_string ">[^/]*)")
    with ("("%char :: pre ++ tail)
    by (unfold pre; cbn [list_ascii_of_string app]; now rewrite <- !app_assoc).
  rewrite (parse_loop_token _ _ _
             (Parse.mkState [Mark 0] 1 [1] [(name, 1)])
             (Parse.TOpen (Some name)) (length pre)).
  - rewrite parse_loop_skip. reflexivity.
  - unfold pre. rewrite <- !app_assoc. cbn [app].
    cbn -[Parse.span Parse.is_identifier length app].
    rewrite span_app; [|now apply identifier_no_gt|reflexivity].
    rewrite Hid. do 2 f_equal. cbn [length]. rewrite length_app.
    cbn [length]. lia.
  - reflexivity.
Qed.

Lemma repeat_one_ext_ok {R : Type} (ok ok' : ascii -> bool)
    (k : nat -> list ascii -> option R) (min pos : nat) (s : list ascii) :
  (forall c, ok c = ok' c) ->
  repeat_one ok k min pos s = repeat_one ok' k min pos s.
Proof.
  intros H. revert min pos. induction s as [|c s IH]; intros min pos; [reflexivity|].
  cbn [repeat_one]. now rewrite H, IH.
Qed.

Section RepeatToEnd.
Context {R : Type}.
Variable ok : ascii -> bool.
Variable k : nat -> list ascii -> option R.
Hypothesis k_at_end : forall pos s, s <> [] -> k pos s = None.

(** When the rest of the pattern wants the end of the string, a
    repetition fails on a string with a character it rejects. *)
Lemma repeat_one_to_end_None (s : list ascii) (min pos : nat) :
  forallb ok s = false -> repeat_one ok k min pos s = None.
Proof.
  revert min pos. induction s as [|c s IH]; intros min pos H; [discriminate|].
  cbn [forallb repeat_one] in *.
  destruct (ok c).
  - rewrite IH by exact H. destruct min; [now apply k_at_end | reflexivity].
  - destruct min; [now apply k_at_end | reflexivity].
Qed.
End RepeatToEnd.

Lemma not_slash_charset (c : ascii) :
  charset_match false (CNotIn ["/"%char]) c = not_slash c.
Proof.
  unfold not_slash. cbn [charset_match existsb Chr.eqb_fold].
  rewrite orb_false_r. now rewrite Ascii.eqb_sym.
Qed.

(** The group pattern matches the strings without a slash, the empty
    one among them, and captures the whole string. *)
Lemma group_pattern_fullmatch (n s : list ascii) :
  fullmatch_at (group_pattern n) s =
  if forallb not_slash s
  then Some (mkMatch s 0 (length s) [(1, length s); (0, 0)] [(n, 1)])
  else None.
Proof.
  unfold fullmatch_at, group_pattern. cbn [pat_code pat_ignorecase pat_groupindex run].
  rewrite (repeat_one_ext_ok _ not_slash) by apply not_slash_charset.
  destruct (forallb not_slash s) eqn:Hs.
  - rewrite <- (app_nil_r s) at 1.
    apply repeat_one_greedy; [exact Hs | exact I | lia | reflexivity].
  - apply repeat_one_to_end_None; [|exact Hs].
    intros pos [|c t] H; [congruence | reflexivity].
Qed.

Lemma string_app_assoc (a b c : string) : (a +:+ b) +:+ c = a +:+ b +:+ c.
Proof.
  induction a as [|x a IH]; [reflexivity|].
  change (String x ((a +:+ b) +:+ c) = String x (a +:+ b +:+ c)).
  now rewrite IH.
Qed.

Lemma transform_path_split (l n r : string) :
  n <> EmptyString ->
  forallb Chr.is_word (list_ascii_of_string n) = true ->
  transform_path (l +:+ "{" +:+ n +:+ "}" +:+ r) =
  transform_path l +:+ "(?P<" +:+ n +:+ ">[^/]*)" +:+ transform_path r.
Proof.
  intros Hne Hw. rewrite !transform_path_sugar, !list_ascii_app.
  cbn [list_ascii_of_string app].
  rewrite sugar_sub_placeholder; [|destruct n; [congruence | discriminate]|exact Hw].
  unfold sugar_group.
  rewrite !string_of_list_ascii_app, !string_of_list_ascii_of_string.
  now rewrite <- !string_app_assoc.
Qed.

(** C1 (as amended).  In every path template a placeholder [{name}]
    is replaced by a named group; when the name is an identifier the
    group compiles, matches exactly the strings of zero or more
    characters other than ['/'] and captures them under that name.  The
    pattern of ["rooms/{roomId}/state"] matches
    ["rooms/!abc:example.org/state"] with [roomId] bound to
    ["!abc:example.org"], and matches ["rooms//state"] with [roomId]
    bound to the empty string. *)
Theorem transform_path_placeholder (l n r : string) :
  n <> EmptyString ->
  forallb Chr.is_word (list_ascii_of_string n) = true ->
  transform_path (l +:+ "{" +:+ n +:+ "}" +:+ r) =
    transform_path l +:+ "(?P<" +:+ n +:+ ">[^/]*)" +:+ transform_path r
  /\ (Parse.is_identifier (list_ascii_of_string n) = true ->
      exists p,
        re_compile ("(?P<" +:+ n +:+ ">[^/]*)") false = Some p /\
        forall s,
          if forallb not_slash (list_ascii_of_string s)
          then exists m, re_fullmatch p s = Some m /\ group m n = Some s
          else re_fullmatch p s = None)
  /\ (exists p,
        re_compile (transform_path "rooms/{roomId}/state") false = Some p /\
        (exists m,
            re_fullmatch p "rooms/!abc:example.org/state" = Some m /\
            group m "roomId" = Some "!abc:example.org") /\
        (exists m,
            re_fullmatch p "rooms//state" = Some m /\
            group m "roomId" = Some EmptyString)).
Proof.
  intros Hne Hw. split; [now apply transform_path_split|]. split.
  - intros Hid. exists (group_pattern (list_ascii_of_string n)).
    split; [now apply group_pattern_compiles|].
    intros s. unfold re_fullmatch. rewrite group_pattern_fullmatch.
    destruct (forallb not_slash (list_ascii_of_string s)); [|reflexivity].
    eexists. split; [reflexivity|].
    unfold group, group_named. cbn [m_groupindex groupindex_lookup].
    rewrite decide_True by reflexivity.
    unfold group_num. cbn [m_marks m_string mark_lookup Nat.sub Nat.mul Nat.add Nat.eqb].
    rewrite Nat.sub_0_r, drop_0, firstn_all.
    change (Some (string_of_list_ascii (list_ascii_of_string s)) = Some s).
    now rewrite string_of_list_ascii_of_string.
  - eexists. split; [vm_compute; reflexivity|].
    split; eexists; (split; [vm_compute; reflexivity | vm_compute; reflexivity]).
Qed.

Lemma transform_path_placeholder_witness :
  transform_path "rooms/{roomId}/state" = "rooms/(?P<roomId>[^/]*)/state".
Proof.
  refine (proj1 (transform_path_placeholder "rooms/" "roomId" "/state" _ _)).
  - discriminate.
  - reflexivity.
Defined.

(** C1, the claim as written, fails on the empty segment: the pattern
    of ["rooms/{roomId}/state"] matches ["rooms//state"]. *)
Lemma transform_path_matches_empty_segment :
  exists p m,
    re_compile (transform_path "rooms/{roomId}/state") false = Some p /\
    re_fullmatch p "rooms//state" = Some m /\
    group m "roomId" = Some EmptyString.
Proof.
  do 2 eexists. split; [vm_compute; reflexivity|].
  split; vm_compute; reflexivity.
Qed.

(** C9 (as amended).  Template text without an opening brace is copied
    into the pattern as it stands, with no escaping, also when it comes
    before a placeholder. *)
Theorem transform_path_literal_text (l n r : string) :
  forallb (fun c => negb (Ascii.eqb "{" c)) (list_ascii_of_string l) = true ->
  transform_path l = l /\
  (n <> EmptyString ->
   forallb Chr.is_word (list_ascii_of_string n) = true ->
   transform_path (l +:+ "{" +:+ n +:+ "}" +:+ r) =
   l +:+ "(?P<" +:+ n +:+ ">[^/]*)" +:+ transform_path r).
Proof.
  intros Hl.
  assert (E : transform_path l = l).
  { rewrite transform_path_sugar, sugar_sub_no_brace by exact Hl.
    apply string_of_list_ascii_of_string. }
  split; [exact E|]. intros Hne Hw.
  now rewrite transform_path_split, E.
Qed.

Lemma transform_path_literal_text_witness :
  transform_path "a.b" = "a.b" /\
  transform_path "a.b{x}/c" = "a.b(?P<x>[^/]*)/c".
Proof.
  destruct (transform_path_literal_text "a.b" "x" "/c") as [H1 H2]; [reflexivity|].
  split; [exact H1|]. apply H2; [discriminate | reflexivity].
Defined.

(** C9, the claim as written, fails on a dot: the template ["a.b"]
    becomes the pattern ["a.b"], whose dot is not escaped and matches
    the ['x'] of ["axb"]. *)
Lemma transform_path_dot_unescaped :
  transform_path "a.b" = "a.b" /\
  exists p m,
    re_compile (transform_path "a.b") false = Some p /\
    re_fullmatch p "axb" = Some m.
Proof.
  split; [reflexivity|]. do 2 eexists. split; vm_compute; reflexivity.
Qed.

(** ** Registration *)

(** Unfolding the monad. *)
Lemma bind_run {A B : Type} (m : M A) (f : A -> M B) (st : store) :
  (m ≫= f) st =
  match m st with
  | (st', inr a) => f a st'
  | (st', inl e) => (st', inl e)
  end.
Proof. reflexivity. Qed.

Lemma dict_at_insert (ds : gmap ref dict) (sv : gmap nat (list call)) (r : ref) (d : dict) :
  dict_at (mkStore (<[r := d]> ds) sv) r = d.
Proof. unfold dict_at. cbn [dicts]. now rewrite lookup_insert_eq. Qed.

Lemma server_log_insert (ds : gmap ref dict) (sv : gmap nat (list call))
    (srv : nat) (l : list call) :
  server_log (mkStore ds (<[srv := l]> sv)) srv = l.
Proof. unfold server_log. cbn [servers]. now rewrite lookup_insert_eq. Qed.

(** What [do_register] does with a string pattern. *)
Lemma do_register_str (cls : string) (srv : nat) (verb p : string) (r : ref)
    (method : ref * instance) (st : store) :
  do_register cls srv verb (IStr p) r method st =
  (mkStore (<[r := add_stopper (dict_at st r)]> (dicts st))
     (<[srv := server_log st srv
                ++ [mkCall verb (client_patterns (transform_path p)
                                   (add_stopper (dict_at st r))) method cls]]>
        (servers st)),
   inr tt).
Proof.
  unfold do_register. rewrite bind_run. cbn [dict_setdefault].
  rewrite bind_run. cbn [mret M_ret]. rewrite bind_run. cbn [read_dict].
  rewrite dict_at_insert. reflexivity.
Qed.

(** *** Counting the registrations *)

Section Count.
Variable srv : nat.





Variable self : instance.


End Count.


Section Compiler.
Variable set_iter : gset ref -> list ref.
Hypothesis set_iter_perm : forall X, set_iter X ≡ₚ elements X.

End Compiler.

(** *** The scan of the class *)

Lemma elem_of_collect_methods (h : heap) (cls : class) (r : ref) :
  r ∈ collect_methods h cls <->
  exists name,
    cls_dict cls !! name = Some r /\ callable h r && hasattr_on h r = true.
Proof.
  unfold collect_methods.
  assert (H : forall l : list (string * ref),
             r ∈ foldr (fun '(name, method) methods =>
                          if callable h method && hasattr_on h method
                          then {[method]} ∪ methods else methods) (∅ : gset ref) l <->
             exists name, (name, r) ∈ l /\ callable h r && hasattr_on h r = true).
  { induction l as [|[n x] l IH]; cbn [foldr].
    - split; [intros Hr; now apply not_elem_of_empty in Hr|].
      intros (name & Hin & _). now apply not_elem_of_nil in Hin.
    - destruct (callable h x && hasattr_on h x) eqn:E.
      + rewrite elem_of_union, elem_of_singleton, IH. split.
        * intros [-> | (name & Hin & Hc)].
          -- exists n. split; [left | exact E].
          -- exists name. split; [now right | exact Hc].
        * intros (name & Hin & Hc). apply elem_of_cons in Hin as [[= <- <-] | Hin]; eauto.
      + rewrite IH. split.
        * intros (name & Hin & Hc). exists name. split; [now right | exact Hc].
        * intros (name & Hin & Hc). apply elem_of_cons in Hin as [[= <- <-] | Hin];
            [congruence | eauto]. }
  rewrite H. split; intros (name & Hin & Hc); exists name; split; auto;
    now apply elem_of_map_to_list.
Qed.

Section Servelet.
Variable set_iter : gset ref -> list ref.

(** C7.  A class none of whose own members is an annotated callable is
    returned as it was, and no object is created: its [register]
    entry, if it has one, is the same object as before. *)
Theorem servelet_without_handlers (h : heap) (cls : class) :
  (forall name r,
      cls_dict cls !! name = Some r -> callable h r && hasattr_on h r = false) ->
  servelet set_iter h cls = (h, cls) /\
  cls_dict (snd (servelet set_iter h cls)) !! "register" = cls_dict cls !! "register".
Proof.
  intros Hnone.
  assert (E : collect_methods h cls = ∅).
  { apply set_eq. intros r. rewrite elem_of_collect_methods. split; [|set_solver].
    intros (name & Hin & Hc). rewrite (Hnone _ _ Hin) in Hc. discriminate. }
  assert (S : servelet set_iter h cls = (h, cls)).
  { unfold servelet. rewrite E, size_empty. reflexivity. }
  now rewrite S.
Qed.

(** What [servelet] installs on a class with annotated handlers. *)
Lemma servelet_installs (h : heap) (cls : class) :
  collect_methods h cls <> ∅ ->
  servelet set_iter h cls =
  (<[fresh (dom h) :=
       Function None
         (register_proxy set_iter h (collect_methods h cls) (dict_get_register h cls))]> h,
   mkClass (cls_name cls) (<["register" := fresh (dom h)]> (cls_dict cls))).
Proof.
  intros Hne. unfold servelet.
  destruct (0 <? size (collect_methods h cls)) eqn:E; [reflexivity|].
  apply Nat.ltb_ge in E. destruct Hne.
  apply leibniz_equiv, size_empty_iff. lia.
Qed.
End Servelet.

(** *** What a run of the annotation-driven part can change *)

Section Preserved.
(** A relation between the store before and the store after, kept by
    each of the three writes that registration performs. *)
Variable P : store -> store -> Prop.
Hypothesis P_refl : forall st, P st st.
Hypothesis P_trans : forall a b c, P a b -> P b c -> P a c.
Hypothesis P_setdefault : forall st r,
  P st (mkStore (<[r := add_stopper (dict_at st r)]> (dicts st)) (servers st)).
Hypothesis P_new_dict : forall st d,
  P st (mkStore (<[fresh (dom (dicts st)) := d]> (dicts st)) (servers st)).
Hypothesis P_register_paths : forall st srv c,
  P st (mkStore (dicts st) (<[srv := server_log st srv ++ [c]]> (servers st))).

Lemma preserves_ret {A : Type} (a : A) : preserves P (mret a).
Proof. intros st. apply P_refl. Qed.

Lemma preserves_raise {A : Type} (e : exn) : preserves P (@raise A e).
Proof. intros st. apply P_refl. Qed.

Lemma preserves_bind {A B : Type} (m : M A) (f : A -> M B) :
  preserves P m -> (forall a, preserves P (f a)) -> preserves P (m ≫= f).
Proof.
  intros Hm Hf st. rewrite bind_run. specialize (Hm st).
  destruct (m st) as [st1 [e|a]]; cbn [fst] in *; [exact Hm|].
  eapply P_trans; [exact Hm | apply Hf].
Qed.

Lemma preserves_for_each {A : Type} (xs : list A) (body : A -> M unit) :
  (forall x, preserves P (body x)) -> preserves P (for_each xs body).
Proof.
  intros Hb. induction xs as [|x xs IH]; cbn [for_each].
  - apply preserves_ret.
  - apply preserves_bind; [apply Hb | intros _; exact IH].
Qed.

Lemma preserves_do_register (cls : string) (srv : nat) (verb : string)
    (pat : item) (r : ref) (method : ref * instance) :
  preserves P (do_register cls srv verb pat r method).
Proof.
  unfold do_register.
  apply preserves_bind; [intros st; apply P_setdefault|]. intros _.
  apply preserves_bind.
  { destruct pat; [apply preserves_ret | apply preserves_raise | apply preserves_raise]. }
  intros path. apply preserves_bind; [intros st; apply P_refl|]. intros kwargs.
  intros st. apply P_register_paths.
Qed.

Lemma preserves_register_aggregate (self : instance) (srv : nat) (on : on_attr)
    (method : ref * instance) (a : path_aggregate) :
  preserves P (register_aggregate self srv on method a).
Proof.
  destruct a as [p | t | ]; cbn [register_aggregate].
  - apply preserves_do_register.
  - apply preserves_bind.
    { unfold tuple_get. destruct (t !! 0); [apply preserves_ret | apply preserves_raise]. }
    intros t0. apply preserves_bind.
    { unfold tuple_get. destruct (t !! 1); [apply preserves_ret | apply preserves_raise]. }
    intros t1. apply preserves_bind; [|intros r; apply preserves_do_register].
    unfold dict_merge. apply preserves_bind; [intros st; apply P_refl|].
    intros base. destruct t1; [apply preserves_raise | | apply preserves_raise].
    intros st. apply P_new_dict.
  - apply preserves_ret.
Qed.

Lemma preserves_register_method (h : heap) (self : instance) (srv : nat) (r : ref) :
  preserves P (register_method h self srv r).
Proof.
  unfold register_method. destruct (get_on h r) as [on|]; [|apply preserves_raise].
  destruct (on_path on).
  - apply preserves_do_register.
  - apply preserves_for_each. intros a. apply preserves_register_aggregate.
  - apply preserves_ret.
Qed.

Lemma preserves_register (set_iter : gset ref -> list ref) (h : heap)
    (methods : gset ref) (self : instance) (srv : nat) :
  preserves P (register set_iter h methods self srv).
Proof.
  unfold register. apply preserves_for_each. intros r.
  apply preserves_register_method.
Qed.
End Preserved.

Lemma register_log_extends (set_iter : gset ref -> list ref) (h : heap)
    (methods : gset ref) (self : instance) (srv srv0 : nat) (st : store) :
  log_extends srv0 st (fst (register set_iter h methods self srv st)).
Proof.
  apply (preserves_register (log_extends srv0)).
  - intros s. exists []. now rewrite app_nil_r.
  - intros a b c [x Hx] [y Hy]. exists (x ++ y). now rewrite Hy, Hx, app_assoc.
  - intros s r. exists []. now rewrite app_nil_r.
  - intros s d. exists []. now rewrite app_nil_r.
  - intros s sv c. unfold log_extends, server_log at 1. cbn [servers].
    destruct (decide (sv = srv0)) as [->|Hne].
    + rewrite lookup_insert_eq. now exists [c].
    + rewrite lookup_insert_ne by exact Hne. exists []. now rewrite app_nil_r.
Qed.

Lemma add_stopper_idem (d : dict) : add_stopper (add_stopper d) = add_stopper d.
Proof.
  unfold add_stopper, setdefault.
  destruct (d !! "add_stopper") eqn:E; [now rewrite E|].
  now rewrite lookup_insert_eq.
Qed.

Lemma add_stopper_lookup_ne (d : dict) (k : string) :
  k <> "add_stopper" -> add_stopper d !! k = d !! k.
Proof.
  intros Hk. unfold add_stopper, setdefault.
  destruct (d !! "add_stopper"); [reflexivity|].
  now rewrite lookup_insert_ne.
Qed.



(** *** The calls that a run appends *)

Lemma add_stopper_lookup (d : dict) (k : string) :
  add_stopper d !! k =
  match d !! k with
  | Some v => Some v
  | None => if decide (k = "add_stopper") then Some (VBool true) else None
  end.
Proof.
  unfold add_stopper, setdefault.
  destruct (d !! "add_stopper") eqn:E.
  - destruct (d !! k) eqn:Ek; [reflexivity|].
    destruct (decide (k = "add_stopper")) as [->|]; [congruence | reflexivity].
  - destruct (decide (k = "add_stopper")) as [->|Hne].
    + now rewrite lookup_insert_eq, E.
    + rewrite lookup_insert_ne by congruence. now destruct (d !! k).
Qed.

Lemma add_stopper_kept (d d' : dict) :
  d' = d \/ d' = add_stopper d -> add_stopper d' = add_stopper d.
Proof. intros [->| ->]; [reflexivity | apply add_stopper_idem]. Qed.

Lemma add_stopper_union (ov d d' : dict) :
  d' = d \/ d' = add_stopper d ->
  add_stopper (ov ∪ d') = add_stopper (ov ∪ d).
Proof.
  intros [->| ->]; [reflexivity|]. apply map_eq. intros k.
  rewrite !add_stopper_lookup, !lookup_union, add_stopper_lookup.
  destruct (ov !! k), (d !! k), (decide (k = "add_stopper")); reflexivity.
Qed.

Lemma dicts_kept_lookup (st0 st : store) (r : ref) (b : dict) :
  dicts_kept st0 st -> dicts st0 !! r = Some b ->
  dict_at st r = b \/ dict_at st r = add_stopper b.
Proof.
  intros H Hb. unfold dict_at. destruct (H r b Hb) as [-> | ->]; auto.
Qed.

Section Log.
Variable srv : nat.
Variable st0 : store.

Lemma follows_refl : follows srv st0 st0.
Proof. split; [intros r d H; now left | reflexivity]. Qed.

(** [do_register] with a string, from a store that follows [st0]. *)
Lemma do_register_follows (cls verb p : string) (r : ref) (b : dict)
    (method : ref * instance) (st : store) :
  follows srv st0 st ->
  dicts st0 !! r = Some b ->
  exists st',
    do_register cls srv verb (IStr p) r method st = (st', inr tt) /\
    follows srv st0 st' /\
    server_log st' srv =
      server_log st srv
      ++ [mkCall verb (client_patterns (transform_path p) (add_stopper b)) method cls].
Proof.
  intros [Hd Hs] Hb. rewrite do_register_str. eexists. split; [reflexivity|].
  rewrite (add_stopper_kept b (dict_at st r))
    by exact (dicts_kept_lookup st0 st r b Hd Hb).
  split; [split|].
  - intros r' d Hr'. cbn [dicts].
    destruct (decide (r = r')) as [<-|Hne].
    + rewrite lookup_insert_eq. right. congruence.
    + rewrite lookup_insert_ne by exact Hne. now apply Hd.
  - intros srv' Hne. cbn [servers]. rewrite lookup_insert_ne by congruence.
    now apply Hs.
  - now rewrite server_log_insert.
Qed.

Variable self : instance.

Lemma register_aggregate_follows (on : on_attr) (method : ref * instance)
    (b : dict) (a : path_aggregate) (st : store) :
  follows srv st0 st ->
  dicts st0 !! on_kwargs on = Some b ->
  registrable a ->
  exists st',
    register_aggregate self srv on method a st = (st', inr tt) /\
    follows srv st0 st' /\
    server_log st' srv = server_log st srv ++ aggregate_calls self on method b a.
Proof.
  intros Hf Hb Ha. destruct a as [p | t | ]; cbn [registrable] in Ha; [| |tauto].
  - now apply do_register_follows.
  - destruct t as [|[p| |] [|[|ov|] extra]]; try tauto.
    cbn [aggregate_calls].
    set (r' := fresh (dom (dicts st))).
    set (st1 := mkStore (<[r' := ov ∪ dict_at st (on_kwargs on)]> (dicts st)) (servers st)).
    assert (E : register_aggregate self srv on method
                  (ATuple (IStr p :: IDict ov :: extra)) st =
                do_register (self_class_name self) srv (on_method on) (IStr p) r' method st1)
      by reflexivity.
    assert (Hsd : add_stopper (dict_at st1 r') = add_stopper (ov ∪ b)).
    { unfold st1. rewrite dict_at_insert.
      apply add_stopper_union.
      exact (dicts_kept_lookup st0 st _ b (proj1 Hf) Hb). }
    rewrite E, do_register_str, Hsd. eexists. split; [reflexivity|].
    destruct Hf as [Hd Hs]. split; [split|].
    + intros r d Hr. cbn [dicts st1].
      assert (Hne : r' <> r).
      { intros <-. apply (is_fresh (dom (dicts st))). fold r'.
        apply elem_of_dom. destruct (Hd _ _ Hr) as [H|H]; rewrite H; eauto. }
      rewrite !lookup_insert_ne by exact Hne. now apply Hd.
    + intros srv' Hne. cbn [servers st1]. rewrite lookup_insert_ne by congruence.
      now apply Hs.
    + rewrite server_log_insert. reflexivity.
Qed.

(** A loop whose body keeps [follows] and logs [out x] for each [x]. *)
Lemma for_each_follows {A : Type} (xs : list A) (body : A -> M unit)
    (out : A -> list call) (st : store) :
  (forall x s, x ∈ xs -> follows srv st0 s ->
     exists s', body x s = (s', inr tt) /\ follows srv st0 s' /\
                server_log s' srv = server_log s srv ++ out x) ->
  follows srv st0 st ->
  exists st',
    for_each xs body st = (st', inr tt) /\ follows srv st0 st' /\
    server_log st' srv = server_log st srv ++ flat_map out xs.
Proof.
  revert st. induction xs as [|x xs IH]; intros st Hb Hf.
  - exists st. cbn [flat_map]. rewrite app_nil_r. auto.
  - destruct (Hb x st) as (s1 & E1 & F1 & L1); [left | exact Hf |].
    destruct (IH s1) as (s2 & E2 & F2 & L2); [|exact F1|].
    { intros y s Hy. apply Hb. now right. }
    exists s2. cbn [for_each flat_map]. rewrite bind_run, E1.
    split; [exact E2|]. split; [exact F2|].
    now rewrite L2, L1, <- app_assoc.
Qed.

Lemma register_method_follows (h : heap) (r : ref) (on : on_attr) (b : dict)
    (st : store) :
  follows srv st0 st ->
  get_on h r = Some on ->
  registrable_path (on_path on) ->
  dicts st0 !! on_kwargs on = Some b ->
  exists st',
    register_method h self srv r st = (st', inr tt) /\
    follows srv st0 st' /\
    server_log st' srv = server_log st srv ++ path_calls self on (r, self) b.
Proof.
  intros Hf Hon Hp Hb. unfold register_method, path_calls. rewrite Hon.
  destruct (on_path on) as [p | xs | ]; cbn [registrable_path] in Hp.
  - now apply do_register_follows.
  - apply for_each_follows; [|exact Hf]. intros a s Ha Hs.
    apply register_aggregate_follows; [exact Hs | exact Hb |].
    rewrite Forall_forall in Hp. now apply Hp.
  - exists st. rewrite app_nil_r. auto.
Qed.
(** The same for every element that does not raise; an element that
    is neither a string nor a tuple adds nothing. *)
Lemma register_aggregate_passes (on : on_attr) (method : ref * instance)
    (b : dict) (a : path_aggregate) (st : store) :
  follows srv st0 st ->
  dicts st0 !! on_kwargs on = Some b ->
  passes a ->
  exists st',
    register_aggregate self srv on method a st = (st', inr tt) /\
    follows srv st0 st' /\
    server_log st' srv = server_log st srv ++ aggregate_calls self on method b a.
Proof.
  intros Hf Hb Ha. destruct a as [p | t | ].
  - now apply register_aggregate_follows.
  - apply register_aggregate_follows; [exact Hf | exact Hb |].
    cbn [passes] in Ha. destruct t as [|[p| |] [|[|ov|] extra]]; try discriminate Ha.
    exact I.
  - exists st. cbn [aggregate_calls]. rewrite app_nil_r. auto.
Qed.

Lemma register_method_passes (h : heap) (r : ref) (on : on_attr) (b : dict)
    (st : store) :
  follows srv st0 st ->
  get_on h r = Some on ->
  passes_path (on_path on) ->
  dicts st0 !! on_kwargs on = Some b ->
  exists st',
    register_method h self srv r st = (st', inr tt) /\
    follows srv st0 st' /\
    server_log st' srv = server_log st srv ++ path_calls self on (r, self) b.
Proof.
  intros Hf Hon Hp Hb. unfold register_method, path_calls. rewrite Hon.
  destruct (on_path on) as [p | xs | ]; cbn [passes_path] in Hp.
  - now apply do_register_follows.
  - apply for_each_follows; [|exact Hf]. intros a s Ha Hs.
    apply register_aggregate_passes; [exact Hs | exact Hb |].
    rewrite Forall_forall in Hp. now apply Hp.
  - exists st. rewrite app_nil_r. auto.
Qed.

(** The loop over the handlers, taken in the order of [l]. *)
Lemma register_methods_follows (h : heap) (l : list ref) (st : store) :
  follows srv st0 st ->
  (forall r, r ∈ l -> ready h st0 r) ->
  exists st',
    for_each l (register_method h self srv) st = (st', inr tt) /\
    follows srv st0 st' /\
    server_log st' srv = server_log st srv ++ flat_map (method_calls h self st0) l.
Proof.
  intros Hf Hl. apply for_each_follows; [|exact Hf].
  intros r s Hr Hs. destruct (Hl r Hr) as (on & b & Hon & Hp & Hb).
  unfold method_calls. rewrite Hon. unfold dict_at at 1. rewrite Hb. cbn [default].
  now apply (register_method_passes h r on b).
Qed.
End Log.

(** A tuple of another shape raises and leaves the servers alone. *)
Lemma bad_tuple_raises (self : instance) (srv : nat) (on : on_attr)
    (method : ref * instance) (t : list item) (e : exn) (st : store) :
  tuple_error t = Some e ->
  exists st',
    register_aggregate self srv on method (ATuple t) st = (st', inl e) /\
    servers st' = servers st.
Proof.
  intros He. destruct t as [|x [|y extra]]; cbn [tuple_error] in He.
  - injection He as <-. exists st. auto.
  - injection He as <-. exists st. auto.
  - destruct x as [p | d | ], y as [q | ov | ]; try discriminate He;
      injection He as <-; eexists; split; reflexivity.
Qed.

Lemma for_each_app {A : Type} (xs ys : list A) (body : A -> M unit) (st : store) :
  for_each (xs ++ ys) body st = (for_each xs body ;; for_each ys body) st.
Proof.
  revert st. induction xs as [|x xs IH]; intros st; cbn [app for_each].
  - reflexivity.
  - rewrite !bind_run. destruct (body x st) as [s1 [e|u]]; [reflexivity|].
    rewrite IH. now rewrite bind_run.
Qed.

(** The handlers of a set are all ready, in whatever order the set
    hands them out. *)
Lemma ready_set_iter (set_iter : gset ref -> list ref) (h : heap) (st : store)
    (methods : gset ref) :
  (forall X, set_iter X ≡ₚ elements X) ->
  (forall r, r ∈ methods -> ready h st r) ->
  forall r, r ∈ set_iter methods -> ready h st r.
Proof.
  intros Hperm Hm r Hr. apply Hm, elem_of_elements. now rewrite <- (Hperm methods).
Qed.

(** *** The composition bridge *)

Lemma collect_methods_nonempty (h : heap) (cls : class) (name : string) (m : ref) :
  cls_dict cls !! name = Some m ->
  callable h m && hasattr_on h m = true ->
  collect_methods h cls <> ∅.
Proof.
  intros Hin Hc E.
  assert (Hm : m ∈ collect_methods h cls) by (apply elem_of_collect_methods; eauto).
  rewrite E in Hm. now apply not_elem_of_empty in Hm.
Qed.

Section Bridge.
Variable set_iter : gset ref -> list ref.
Hypothesis set_iter_perm : forall X, set_iter X ≡ₚ elements X.

End Bridge.

(** The handlers collected from the class with two handlers. *)
Lemma example_class_two_methods (h : heap) (r : ref) :
  r ∈ collect_methods h example_class_two -> r = 1 \/ r = 3 \/ r = 2.
Proof.
  intros Hr. apply elem_of_collect_methods in Hr as (n & Hn & _).
  change (cls_dict example_class_two)
    with (<["on_get" := 1]> (<["on_put" := 3]> ({[ "register" := 2 ]} : gmap string ref)))
    in Hn.
  apply lookup_insert_Some in Hn as [[_ <-]|[_ Hn]]; [now left|].
  apply lookup_insert_Some in Hn as [[_ <-]|[_ Hn]]; [now right; left|].
  apply lookup_singleton_Some in Hn as [_ <-]. now right; right.
Qed.



(** *** Applying servelet twice *)



Section Twice.
Variable set_iter : gset ref -> list ref.
Hypothesis set_iter_perm : forall X, set_iter X ≡ₚ elements X.

Variable h : heap.
Variable cls : class.
Variable f : instance -> nat -> M unit.

(** The heap and the class after one application of [servelet] that
    installed [f]. *)
Let r1 : ref := fresh (dom h).
Let h1 : heap := <[r1 := Function None f]> h.





End Twice.

Section TwiceCount.
Variable set_iter : gset ref -> list ref.
Hypothesis set_iter_perm : forall X, set_iter X ≡ₚ elements X.

End TwiceCount.



(** *** The options of an annotation *)





(** *** Per-path options *)

(** C5 (as amended).  For a path entry that is a tuple starting with a
    path and an overrides dict, the loop returns normally and sends
    one call to the server.  The options of that call have, for each
    key, the value of the overrides when they have the key, otherwise
    the value of the annotation's options when they have it, and
    otherwise [True] for the key [add_stopper] and nothing for any
    other key.  They are held by a new dict: the dicts that existed,
    the annotation's options among them, keep their contents, and the
    other servers get nothing. *)
Theorem register_tuple_merges_options (self : instance) (http_server : nat)
    (on : on_attr) (method : ref * instance) (p : string) (ov : dict)
    (extra : list item) (st : store) :
  exists st' kwargs,
    register_aggregate self http_server on method
      (ATuple (IStr p :: IDict ov :: extra)) st = (st', inr tt) /\
    server_log st' http_server =
      server_log st http_server
      ++ [mkCall (on_method on) (client_patterns (transform_path p) kwargs)
            method (self_class_name self)] /\
    (forall k,
       kwargs !! k =
       match ov !! k with
       | Some v => Some v
       | None =>
           match dict_at st (on_kwargs on) !! k with
           | Some v => Some v
           | None => if decide (k = "add_stopper") then Some (VBool true) else None
           end
       end) /\
    (forall r d, dicts st !! r = Some d -> dicts st' !! r = Some d) /\
    (forall srv', srv' <> http_server -> servers st' !! srv' = servers st !! srv').
Proof.
  set (r' := fresh (dom (dicts st))).
  set (st1 := mkStore (<[r' := ov ∪ dict_at st (on_kwargs on)]> (dicts st)) (servers st)).
  assert (E : register_aggregate self http_server on method
                (ATuple (IStr p :: IDict ov :: extra)) st =
              do_register (self_class_name self) http_server (on_method on)
                (IStr p) r' method st1) by reflexivity.
  assert (Hd : dict_at st1 r' = ov ∪ dict_at st (on_kwargs on))
    by (unfold st1; apply dict_at_insert).
  rewrite E, do_register_str, Hd.
  eexists _, (add_stopper (ov ∪ dict_at st (on_kwargs on))).
  split; [reflexivity|]. split; [|split; [|split]].
  - rewrite server_log_insert. reflexivity.
  - intros k. rewrite add_stopper_lookup, lookup_union.
    destruct (ov !! k), (dict_at st (on_kwargs on) !! k); reflexivity.
  - intros r d Hr. cbn [dicts st1].
    assert (Hne : r' <> r).
    { intros <-. apply (is_fresh (dom (dicts st))). fold r'.
      apply elem_of_dom. eauto. }
    now rewrite !lookup_insert_ne by exact Hne.
  - intros srv' Hne. cbn [servers st1]. now rewrite lookup_insert_ne by congruence.
Qed.

(** C5, the claim as written, fails on its own example: with the
    options [{"x": 0, "y": 2}] and the entry [("foo/{id}", {"x": 1})]
    the server is handed [{"x": 1, "y": 2, "add_stopper": True}],
    which is not [{"x": 1, "y": 2}]. *)
Lemma register_tuple_sends_add_stopper :
  server_log
    (fst (register elements {[ 3 := example_handler_pair ]} {[ 3 ]}
            example_self 5 example_store_two)) 5
  = [mkCall "PUT"
       (client_patterns "foo/(?P<id>[^/]*)"
          {[ "x" := VInt 1; "y" := VInt 2; "add_stopper" := VBool true ]})
       (3, example_self) "Foo"] /\
  ({[ "x" := VInt 1; "y" := VInt 2; "add_stopper" := VBool true ]} : dict)
    <> {[ "x" := VInt 1; "y" := VInt 2 ]}.
Proof.
  split; [vm_compute; reflexivity|].
  intros E. apply (f_equal (fun d : dict => d !! "add_stopper")) in E.
  vm_compute in E. discriminate E.
Qed.

(** *** Elements of a path sequence that are not paths *)

(** C8 (as amended).  In a path sequence an element that is neither a
    string nor a tuple is passed over: it raises nothing and changes
    nothing, and the loop runs as it would on the sequence without
    such elements. *)
Theorem register_skips_other (self : instance) (http_server : nat)
    (on : on_attr) (method : ref * instance) (xs : list path_aggregate) (st : store) :
  register_aggregate self http_server on method AOther st = (st, inr tt) /\
  for_each xs (register_aggregate self http_server on method) st =
  for_each (List.filter (fun a => negb (is_other a)) xs)
    (register_aggregate self http_server on method) st.
Proof.
  split; [reflexivity|]. revert st.
  induction xs as [|a xs IH]; intros st; [reflexivity|].
  cbn [List.filter for_each].
  destruct a as [p | t | ]; cbn [is_other negb for_each].
  - rewrite !bind_run.
    destruct (register_aggregate self http_server on method (AStr p) st) as [st1 [e|u]];
      [reflexivity | apply IH].
  - rewrite !bind_run.
    destruct (register_aggregate self http_server on method (ATuple t) st) as [st1 [e|u]];
      [reflexivity | apply IH].
  - rewrite bind_run. cbn [register_aggregate mret M_ret]. apply IH.
Qed.

(** C8, the claim as written, fails on a tuple of one element, which
    is neither a string nor a [(string, options)] pair: the loop
    raises [IndexError] on it. *)
Lemma register_raises_on_short_tuple :
  register_aggregate example_self 5 (mkOn "GET" (PIter [ATuple [IStr "a"]]) 7)
    (1, example_self) (ATuple [IStr "a"]) example_store
  = (example_store, inl IndexError) /\
  register_method
    {[ 1 := Function (Some (mkOn "GET" (PIter [ATuple [IStr "a"]; AStr "b"]) 7))
              (fun _ _ => mret tt) ]}
    example_self 5 1 example_store
  = (example_store, inl IndexError).
Proof. split; reflexivity. Qed.

(** *** Instances *)


Lemma servelet_without_handlers_witness :
  servelet elements example_plain_heap example_plain_class
    = (example_plain_heap, example_plain_class) /\
  cls_dict (snd (servelet elements example_plain_heap example_plain_class)) !! "register"
    = Some 4.
Proof.
  apply (servelet_without_handlers elements example_plain_heap example_plain_class).
  intros name r Hr.
  change (cls_dict example_plain_class)
    with (<["limit" := 3]> ({[ "register" := 4 ]} : gmap string ref)) in Hr.
  apply lookup_insert_Some in Hr as [[_ <-]|[_ Hr]]; [reflexivity|].
  apply lookup_singleton_Some in Hr as [_ <-]. reflexivity.
Defined.

(** * Further properties *)

(** ** More on glob_to_regex *)

Lemma glob_accepts_iff (glob s : string) :
  glob_accepts glob s = true <->
  glob_matches not_newline (list_ascii_of_string glob) (list_ascii_of_string s).
Proof.
  unfold glob_accepts. rewrite glob_to_regex_compiles.
  unfold re_match, match_at, glob_pattern. cbn [pat_code pat_ignorecase run Nat.eqb].
  rewrite <- (run_glob (fun e _ m =>
                          Some (mkMatch (list_ascii_of_string s) 0 e m []))
                (fun e m => ltac:(eauto))
                (list_ascii_of_string glob) 0 (list_ascii_of_string s) []).
  cbn [pat_groupindex].
  destruct (run true _ _ 0 (list_ascii_of_string s) []) as [mt|].
  - split; eauto.
  - split; [discriminate | intros [x Hx]; discriminate].
Qed.

Lemma lower_newline_only (c : ascii) :
  Chr.lower c = Chr.newline -> c = Chr.newline.
Proof.
  destruct c as [[] [] [] [] [] [] [] []]; intros H;
    solve [ reflexivity | vm_compute in H; discriminate H ].
Qed.

Lemma lower_not_newline (c d : ascii) :
  Chr.lower c = Chr.lower d -> not_newline c = not_newline d.
Proof.
  intros H. unfold not_newline.
  destruct (Ascii.eqb c Chr.newline) eqn:Ec, (Ascii.eqb d Chr.newline) eqn:Ed;
    try reflexivity.
  - apply Ascii.eqb_eq in Ec. apply Ascii.eqb_neq in Ed. subst c.
    destruct Ed. apply lower_newline_only. now rewrite <- H.
  - apply Ascii.eqb_eq in Ed. apply Ascii.eqb_neq in Ec. subst d.
    destruct Ec. now apply lower_newline_only.
Qed.

Lemma glob_matches_literal (g s : list ascii) :
  forallb (fun c => negb (is_wildcard c)) g = true ->
  glob_matches not_newline g s <-> map Chr.lower g = map Chr.lower s.
Proof.
  revert s. induction g as [|c g IH]; intros s Hg.
  - rewrite glob_matches_end_inv. destruct s; [tauto|].
    split; discriminate.
  - cbn [forallb] in Hg. apply andb_prop in Hg as [Hc Hg].
    apply negb_true_iff, orb_false_elim in Hc as [Hs Hq].
    apply Ascii.eqb_neq in Hs, Hq.
    rewrite (glob_matches_char_inv _ _ _ _ Hs Hq). split.
    + intros (d & rest & -> & Hd & H). cbn [map]. f_equal; [exact Hd|].
      now apply IH.
    + destruct s as [|d rest]; [discriminate|]. cbn [map]. intros [= Hd H].
      exists d, rest. split; [reflexivity|]. split; [exact Hd|]. now apply IH.
Qed.

Lemma glob_matches_self (g : list ascii) : glob_matches not_newline g g.
Proof.
  induction g as [|c g IH]; [constructor|].
  destruct (Ascii.eqb c "*") eqn:Hs.
  - apply Ascii.eqb_eq in Hs as ->.
    change (glob_matches not_newline ("*"%char :: g) (["*"%char] ++ g)).
    now apply gm_star.
  - destruct (Ascii.eqb c "?") eqn:Hq.
    + apply Ascii.eqb_eq in Hq as ->. now apply gm_question.
    + apply Ascii.eqb_neq in Hs, Hq. now apply gm_char.
Qed.

Lemma glob_matches_app (g1 g2 s : list ascii) :
  glob_matches not_newline (g1 ++ g2) s <->
  exists s1 s2,
    s = s1 ++ s2 /\ glob_matches not_newline g1 s1 /\ glob_matches not_newline g2 s2.
Proof.
  revert s. induction g1 as [|c g1 IH]; intros s; cbn [app].
  - split.
    + intros H. exists [], s. split; [reflexivity|]. split; [constructor | exact H].
    + intros (s1 & s2 & -> & H1 & H2). apply glob_matches_end_inv in H1 as ->. exact H2.
  - destruct (Ascii.eqb c "*") eqn:Hs.
    { apply Ascii.eqb_eq in Hs as ->. rewrite glob_matches_star_inv. split.
      - intros (w & rest & -> & Hw & H). apply IH in H as (s1 & s2 & -> & H1 & H2).
        exists (w ++ s1), s2. rewrite <- app_assoc. split; [reflexivity|].
        split; [now apply gm_star | exact H2].
      - intros (s1 & s2 & -> & H1 & H2).
        apply glob_matches_star_inv in H1 as (w & rest & -> & Hw & H1).
        exists w, (rest ++ s2). rewrite <- app_assoc. split; [reflexivity|].
        split; [exact Hw|]. apply IH. eauto. }
    destruct (Ascii.eqb c "?") eqn:Hq.
    { apply Ascii.eqb_eq in Hq as ->. rewrite glob_matches_question_inv. split.
      - intros (d & rest & -> & Hd & H). apply IH in H as (s1 & s2 & -> & H1 & H2).
        exists (d :: s1), s2. split; [reflexivity|].
        split; [now apply gm_question | exact H2].
      - intros (s1 & s2 & -> & H1 & H2).
        apply glob_matches_question_inv in H1 as (d & rest & -> & Hd & H1).
        exists d, (rest ++ s2). split; [reflexivity|].
        split; [exact Hd|]. apply IH. eauto. }
    apply Ascii.eqb_neq in Hs, Hq.
    rewrite (glob_matches_char_inv _ _ _ _ Hs Hq). split.
    + intros (d & rest & -> & Hd & H). apply IH in H as (s1 & s2 & -> & H1 & H2).
      exists (d :: s1), s2. split; [reflexivity|].
      split; [now apply gm_char | exact H2].
    + intros (s1 & s2 & -> & H1 & H2).
      apply (glob_matches_char_inv _ _ _ _ Hs Hq) in H1 as (d & rest & -> & Hd & H1).
      exists d, (rest ++ s2). split; [reflexivity|].
      split; [exact Hd|]. apply IH. eauto.
Qed.

Lemma map_lower_app_inv (a b s' : list ascii) :
  map Chr.lower (a ++ b) = map Chr.lower s' ->
  exists a' b',
    s' = a' ++ b' /\ map Chr.lower a = map Chr.lower a' /\
    map Chr.lower b = map Chr.lower b'.
Proof.
  revert s'. induction a as [|c a IH]; intros s' H; cbn [app map] in H.
  - exists [], s'. auto.
  - destruct s' as [|d s']; [discriminate|]. cbn [map] in H. injection H as Hc H.
    destruct (IH _ H) as (a' & b' & -> & Ha & Hb).
    exists (d :: a'), b'. cbn [map]. rewrite Hc, Ha. auto.
Qed.

Lemma forallb_not_newline_lower (a a' : list ascii) :
  map Chr.lower a = map Chr.lower a' ->
  forallb not_newline a = true -> forallb not_newline a' = true.
Proof.
  revert a'. induction a as [|c a IH]; intros [|d a'] H; try discriminate; [auto|].
  cbn [map] in H. injection H as Hc H. cbn [forallb].
  rewrite (lower_not_newline c d Hc). intros [Hd Ha]%andb_prop.
  rewrite Hd. now apply IH.
Qed.

Lemma glob_matches_casefold (g s s' : list ascii) :
  map Chr.lower s = map Chr.lower s' ->
  glob_matches not_newline g s -> glob_matches not_newline g s'.
Proof.
  intros E H. revert s' E. induction H as [|glob w rest Hw H IH|glob c rest Hc H IH
                                           |c glob d rest Hs Hq Hd H IH]; intros s' E.
  - destruct s'; [constructor | discriminate].
  - apply map_lower_app_inv in E as (w' & rest' & -> & Ew & Er).
    apply gm_star; [now apply (forallb_not_newline_lower w) | now apply IH].
  - destruct s' as [|d s']; [discriminate|]. cbn [map] in E. injection E as Ec E.
    apply gm_question; [now rewrite <- (lower_not_newline c d Ec) | now apply IH].
  - destruct s' as [|e s']; [discriminate|]. cbn [map] in E. injection E as Ec E.
    apply gm_char; [exact Hs | exact Hq | congruence | now apply IH].
Qed.

(** X1.  A glob without wildcards accepts exactly the strings equal to
    it up to the case of letters, whatever characters it is made of. *)
Theorem glob_literal_accepts (glob s : string) :
  forallb (fun c => negb (is_wildcard c)) (list_ascii_of_string glob) = true ->
  glob_accepts glob s = true <-> casefold glob = casefold s.
Proof.
  intros Hg. rewrite glob_accepts_iff. now apply glob_matches_literal.
Qed.

Lemma glob_literal_accepts_witness :
  glob_accepts "a.b[c]" "A.B[C]" = true <-> casefold "a.b[c]" = casefold "A.B[C]".
Proof. apply (glob_literal_accepts "a.b[c]" "A.B[C]"). reflexivity. Defined.

(** X2.  Every glob accepts its own text. *)
Theorem glob_accepts_itself (glob : string) : glob_accepts glob glob = true.
Proof. apply glob_accepts_iff, glob_matches_self. Qed.

(** X3.  A glob made of two parts accepts exactly the strings that
    split into a string accepted by the first part followed by a string
    accepted by the second. *)
Theorem glob_accepts_app (g1 g2 s : string) :
  glob_accepts (g1 +:+ g2) s = true <->
  exists s1 s2,
    s = s1 +:+ s2 /\ glob_accepts g1 s1 = true /\ glob_accepts g2 s2 = true.
Proof.
  rewrite glob_accepts_iff, list_ascii_app, glob_matches_app. split.
  - intros (l1 & l2 & E & H1 & H2).
    exists (string_of_list_ascii l1), (string_of_list_ascii l2).
    rewrite !glob_accepts_iff, !list_ascii_of_string_of_list_ascii.
    split; [|auto].
    rewrite <- string_of_list_ascii_app, <- E. symmetry.
    apply string_of_list_ascii_of_string.
  - intros (s1 & s2 & -> & H1 & H2). apply glob_accepts_iff in H1, H2.
    exists (list_ascii_of_string s1), (list_ascii_of_string s2).
    rewrite list_ascii_app. auto.
Qed.

(** X4.  Whether a glob accepts a string does not depend on the case
    of the string's letters. *)
Theorem glob_accepts_casefold (glob s s' : string) :
  casefold s = casefold s' ->
  glob_accepts glob s = glob_accepts glob s'.
Proof.
  intros E.
  destruct (glob_accepts glob s) eqn:H, (glob_accepts glob s') eqn:H'; try reflexivity.
  - apply glob_accepts_iff in H.
    apply (glob_matches_casefold _ _ _ E), glob_accepts_iff in H. congruence.
  - apply glob_accepts_iff in H'. symmetry in E.
    apply (glob_matches_casefold _ _ _ E), glob_accepts_iff in H'. congruence.
Qed.

Lemma glob_accepts_casefold_witness :
  glob_accepts "*.Example.ORG" "matrix.example.org"
  = glob_accepts "*.Example.ORG" "MATRIX.EXAMPLE.ORG".
Proof.
  apply (glob_accepts_casefold "*.Example.ORG" "matrix.example.org" "MATRIX.EXAMPLE.ORG").
  reflexivity.
Defined.

(** ** More on transform_path *)

Lemma placeholder_at_starts (c : ascii) (l : list ascii) :
  c <> "{"%char -> placeholder_at (c :: l) = None.
Proof.
  intros Hc. cbn [placeholder_at].
  destruct (Ascii.eqb "{" c) eqn:E; [|reflexivity].
  apply Ascii.eqb_eq in E. congruence.
Qed.

(** A placeholder seen before a character that is neither a word
    character nor a closing brace lies before that character. *)
Lemma placeholder_at_before_stop (d c : ascii) (l x : list ascii) :
  Chr.is_word d = false -> d <> "}"%char ->
  placeholder_at (c :: l ++ d :: x) = placeholder_at (c :: l).
Proof.
  intros Hd Hne. cbn [placeholder_at]. destruct (Ascii.eqb "{" c); [|reflexivity].
  pose proof (span_spec Chr.is_word l) as (Hl & Hw & Hrest).
  destruct (Parse.span Chr.is_word l) as [w rest] eqn:Hspan. cbn [fst snd] in *.
  destruct rest as [|e rest].
  - rewrite app_nil_r in Hl. subst l.
    rewrite span_app; [|exact Hw|exact Hd].
    destruct w; [reflexivity|].
    destruct (Ascii.eqb "}" d) eqn:E; [|reflexivity].
    apply Ascii.eqb_eq in E. congruence.
  - rewrite Hl, <- app_assoc. cbn [app].
    rewrite span_app; [|exact Hw|exact Hrest]. reflexivity.
Qed.

Lemma sugar_sub_app_stop (d : ascii) (l x : list ascii) (skip : nat) :
  Chr.is_word d = false -> d <> "}"%char ->
  skip <= length l ->
  sugar_sub (l ++ d :: x) skip = sugar_sub l skip ++ sugar_sub (d :: x) 0.
Proof.
  intros Hd Hne. revert skip. induction l as [|c l IH]; intros skip Hskip.
  - simpl in Hskip. assert (skip = 0) by lia. subst skip. reflexivity.
  - destruct skip as [|n].
    + cbn [app sugar_sub]. rewrite (placeholder_at_before_stop d) by assumption.
      destruct (placeholder_at (c :: l)) as [w|] eqn:Hp.
      * apply placeholder_at_shape in Hp as (rest & E & _ & _).
        injection E as _ E.
        rewrite IH, app_assoc; [reflexivity|].
        rewrite E, length_app. simpl. lia.
      * rewrite IH; [reflexivity | lia].
    + cbn [app sugar_sub]. apply IH. simpl in Hskip. lia.
Qed.

(** X5.  The segments of a path are transformed one by one: a
    placeholder never reaches across a ['/']. *)
Theorem transform_path_segments (a b : string) :
  transform_path (a +:+ "/" +:+ b) = transform_path a +:+ "/" +:+ transform_path b.
Proof.
  rewrite !transform_path_sugar, !list_ascii_app.
  cbn [list_ascii_of_string app].
  rewrite (sugar_sub_app_stop "/") by (reflexivity || discriminate || lia).
  cbn [sugar_sub]. rewrite placeholder_at_starts by discriminate.
  now rewrite string_of_list_ascii_app.
Qed.

(** *** Text without placeholders *)

Lemma no_placeholder_tail (c : ascii) (l : list ascii) :
  no_placeholder (c :: l) -> no_placeholder l.
Proof. intros H a b E. apply (H (c :: a) b). now rewrite E. Qed.

Lemma no_placeholder_cons (c : ascii) (l : list ascii) :
  placeholder_at (c :: l) = None -> no_placeholder l -> no_placeholder (c :: l).
Proof.
  intros Hc Hl a b E. destruct a as [|x a]; cbn [app] in E.
  - now subst b.
  - injection E as _ E. now apply (Hl a b).
Qed.

Lemma sugar_sub_no_placeholder (l : list ascii) :
  no_placeholder l -> sugar_sub l 0 = l.
Proof.
  induction l as [|c l IH]; intros H; [reflexivity|].
  cbn [sugar_sub]. rewrite (H [] (c :: l) eq_refl).
  now rewrite IH by (eapply no_placeholder_tail; eauto).
Qed.

(** The text of a group holds no opening brace. *)
Lemma no_placeholder_group (w o : list ascii) :
  forallb Chr.is_word w = true ->
  no_placeholder o -> no_placeholder (sugar_group w ++ o).
Proof.
  intros Hw Ho. unfold sugar_group. cbn [list_ascii_of_string app].
  repeat (apply no_placeholder_cons; [apply placeholder_at_starts; discriminate|]).
  rewrite <- app_assoc.
  induction w as [|x w IH]; cbn [app].
  - cbn [list_ascii_of_string app].
    repeat (apply no_placeholder_cons; [apply placeholder_at_starts; discriminate|]).
    exact Ho.
  - cbn [forallb] in Hw. apply andb_prop in Hw as [Hx Hw].
    apply no_placeholder_cons; [|now apply IH].
    apply placeholder_at_starts. intros ->. discriminate Hx.
Qed.

(** Word characters pass through the substitution. *)
Lemma sugar_sub_word_run (w rest : list ascii) :
  forallb Chr.is_word w = true ->
  sugar_sub (w ++ rest) 0 = w ++ sugar_sub rest 0.
Proof.
  intros Hw. induction w as [|x w IH]; [reflexivity|].
  cbn [forallb] in Hw. apply andb_prop in Hw as [Hx Hw].
  cbn [app sugar_sub]. rewrite placeholder_at_starts by (intros ->; discriminate Hx).
  now rewrite IH.
Qed.

(** The first character of the output is the first character of the
    input, or the parenthesis that opens a group. *)
Lemma sugar_sub_head (c : ascii) (l : list ascii) :
  exists o, sugar_sub (c :: l) 0 = c :: o \/
            (c = "{"%char /\ sugar_sub (c :: l) 0 = "("%char :: o).
Proof.
  cbn [sugar_sub]. destruct (placeholder_at (c :: l)) as [w|] eqn:Hp.
  - apply placeholder_at_shape in Hp as (rest & E & _ & _). injection E as -> _.
    eexists. right. split; [reflexivity|]. unfold sugar_group.
    cbn [list_ascii_of_string app]. reflexivity.
  - eexists. left. reflexivity.
Qed.

Lemma placeholder_at_output (c : ascii) (l : list ascii) :
  placeholder_at (c :: l) = None ->
  placeholder_at (c :: sugar_sub l 0) = None.
Proof.
  cbn [placeholder_at]. destruct (Ascii.eqb "{" c); [|reflexivity].
  pose proof (span_spec Chr.is_word l) as (Hl & Hw & Hrest).
  destruct (Parse.span Chr.is_word l) as [w rest]. cbn [fst snd] in *.
  intros Hnone. rewrite Hl, (sugar_sub_word_run w rest Hw).
  destruct rest as [|d rest].
  - cbn [sugar_sub placeholder_at]. rewrite app_nil_r.
    rewrite <- (app_nil_r w) at 1.
    rewrite span_app; [|exact Hw|exact I]. now destruct w.
  - destruct (sugar_sub_head d rest) as (o & [E | [-> E]]); rewrite E.
    + rewrite span_app; [|exact Hw|exact Hrest]. exact Hnone.
    + rewrite span_app; [|exact Hw|reflexivity]. now destruct w.
Qed.

Lemma sugar_sub_output_clean (n : nat) (s : list ascii) :
  length s <= n -> no_placeholder (sugar_sub s 0).
Proof.
  revert s. induction n as [|n IH]; intros s Hn.
  - destruct s; [|simpl in Hn; lia]. intros a b E.
    symmetry in E. apply app_eq_nil in E as [_ ->]. reflexivity.
  - destruct s as [|c s].
    { intros a b E. symmetry in E. apply app_eq_nil in E as [_ ->]. reflexivity. }
    cbn [length] in Hn. cbn [sugar_sub].
    destruct (placeholder_at (c :: s)) as [w|] eqn:Hp.
    + apply placeholder_at_shape in Hp as (rest & E & _ & Hw).
      injection E as _ ->.
      replace (w ++ "}"%char :: rest) with ((w ++ ["}"%char]) ++ rest)
        by (now rewrite <- app_assoc).
      replace (length w + 1) with (length (w ++ ["}"%char]))
        by (rewrite length_app; reflexivity).
      rewrite sugar_sub_skip. apply no_placeholder_group; [exact Hw|].
      apply IH. rewrite !length_app in Hn. simpl in Hn. lia.
    + apply no_placeholder_cons.
      * now apply placeholder_at_output.
      * apply IH. lia.
Qed.

(** X6.  The output of [transform_path] holds no placeholder:
    transforming it again changes nothing. *)
Theorem transform_path_idempotent (orig_path : string) :
  transform_path (transform_path orig_path) = transform_path orig_path.
Proof.
  rewrite (transform_path_sugar (transform_path orig_path)).
  rewrite (transform_path_sugar orig_path) at 1.
  rewrite list_ascii_of_string_of_list_ascii.
  rewrite sugar_sub_no_placeholder
    by (apply (sugar_sub_output_clean (length (list_ascii_of_string orig_path))); lia).
  symmetry. apply transform_path_sugar.
Qed.

(** X7.  A template in which no placeholder starts, braces or not, is
    returned as it is. *)
Theorem transform_path_without_placeholder (orig_path : string) :
  no_placeholder (list_ascii_of_string orig_path) ->
  transform_path orig_path = orig_path.
Proof.
  intros H. rewrite transform_path_sugar, sugar_sub_no_placeholder by exact H.
  apply string_of_list_ascii_of_string.
Qed.

(** ** The pattern of a template *)

Lemma lex_plain_char (c : ascii) (rest : list ascii) :
  plain_char c = true ->
  Parse.lex c rest = Some (Parse.TOp (One (CLiteral c)), 0).
Proof.
  destruct c as [[] [] [] [] [] [] [] []]; intros H;
    solve [ vm_compute in H; discriminate H | reflexivity ].
Qed.

Lemma plain_char_not_brace (c : ascii) : plain_char c = true -> c <> "{"%char.
Proof. intros H ->. vm_compute in H. discriminate H. Qed.

Lemma segments_transformed (segs : list segment) :
  Forall wf_segment segs ->
  sugar_sub (flat_map segment_text segs) 0 =
  flat_map (fun x => match x with
                     | SLit c => [c]
                     | SHole n => sugar_group n
                     end) segs.
Proof.
  induction 1 as [|x segs Hx _ IH]; [reflexivity|].
  destruct x as [c | n]; cbn [flat_map segment_text app wf_segment] in *.
  - cbn [sugar_sub]. rewrite placeholder_at_starts by now apply plain_char_not_brace.
    now rewrite IH.
  - destruct Hx as [Hid Hw].
    assert (Hne : n <> []) by (intros ->; discriminate Hid).
    cbn [sugar_sub]. rewrite <- app_assoc. cbn [app].
    rewrite placeholder_at_intro by assumption. f_equal.
    replace (n ++ "}"%char :: flat_map segment_text segs)
      with ((n ++ ["}"%char]) ++ flat_map segment_text segs)
      by (now rewrite <- app_assoc).
    replace (length n + 1) with (length (n ++ ["}"%char]))
      by (rewrite length_app; reflexivity).
    now rewrite sugar_sub_skip.
Qed.

Lemma has_name_false (n : list ascii) (names : list (list ascii * nat)) :
  n ∉ map fst names -> Parse.has_name n names = false.
Proof.
  induction names as [|[m g] names IH]; [reflexivity|]. cbn [map fst].
  intros H. apply not_elem_of_cons in H as [Hne H]. cbn [Parse.has_name existsb fst].
  rewrite bool_decide_eq_false_2 by congruence. now apply IH.
Qed.

Lemma parse_group (n rest : list ascii) (code : list op) (g : nat)
    (names : list (list ascii * nat)) :
  Parse.is_identifier n = true ->
  n ∉ map fst names ->
  Parse.loop (sugar_group n ++ rest) 0 (Parse.mkState code g [] names) =
  Parse.loop rest 0
    (Parse.mkState
       (Mark (2 * g + 1) :: Repeat 0 (CNotIn ["/"%char]) :: Mark (2 * g) :: code)
       (S g) [] (names ++ [(n, S g)])).
Proof.
  intros Hid Hnew. unfold sugar_group.
  set (tail := ["["%char; "^"%char; "/"%char; "]"%char; "*"%char; ")"%char]).
  set (pre := ["?"%char; "P"%char; "<"%char] ++ n ++ [">"%char]).
  replace ((list_ascii_of_string "(?P<" ++ n ++ list_ascii_of_string ">[^/]*)") ++ rest)
    with ("("%char :: pre ++ tail ++ rest)
    by (unfold pre; cbn [list_ascii_of_string app]; now rewrite <- !app_assoc).
  rewrite (parse_loop_token _ _ _
             (Parse.mkState (Mark (2 * g) :: code) (S g) [S g] (names ++ [(n, S g)]))
             (Parse.TOpen (Some n)) (length pre)).
  - rewrite parse_loop_skip. unfold tail. cbn -[Nat.mul].
    replace (g - 0) with g by lia. reflexivity.
  - unfold pre. rewrite <- !app_assoc. cbn [app].
    cbn -[Parse.span Parse.is_identifier length app].
    rewrite span_app; [|now apply identifier_no_gt|reflexivity].
    rewrite Hid. do 2 f_equal. cbn [length]. rewrite length_app.
    cbn [length]. lia.
  - cbn [Parse.apply_token Parse.st_names Parse.st_groups Parse.st_code Parse.st_open].
    rewrite has_name_false by exact Hnew.
    replace (S g - 1) with g by lia. reflexivity.
Qed.

Lemma parse_segments (segs : list segment) (rest : list ascii) (code : list op)
    (g : nat) (names : list (list ascii * nat)) :
  Forall wf_segment segs ->
  NoDup (map fst names ++ hole_names segs) ->
  Parse.loop
    (flat_map (fun x => match x with
                        | SLit c => [c]
                        | SHole n => sugar_group n
                        end) segs ++ rest) 0
    (Parse.mkState code g [] names) =
  Parse.loop rest 0
    (Parse.mkState (rev (segs_code g segs) ++ code) (g + length (hole_names segs)) []
       (names ++ segs_names g segs)).
Proof.
  intros Hwf. revert code g names.
  induction Hwf as [|x segs Hx _ IH]; intros code g names Hnd.
  - cbn. now rewrite Nat.add_0_r, app_nil_r.
  - destruct x as [c | n]; cbn [flat_map hole_names segs_code segs_names app] in *.
    + rewrite (parse_loop_token _ _ _
                 (Parse.mkState (One (CLiteral c) :: code) g [] names)
                 (Parse.TOp (One (CLiteral c))) 0);
        [|now apply lex_plain_char|reflexivity].
      rewrite IH by exact Hnd. cbn [rev]. now rewrite <- app_assoc.
    + destruct Hx as [Hid Hw].
      rewrite <- app_assoc, parse_group; [|exact Hid|].
      * rewrite IH.
        -- f_equal. f_equal.
           ++ cbn [rev]. rewrite <- !app_assoc. reflexivity.
           ++ unfold hole_names. cbn [length]. lia.
           ++ now rewrite <- app_assoc.
        -- rewrite map_app. cbn [map fst]. rewrite <- app_assoc. exact Hnd.
      * apply NoDup_app in Hnd as (_ & Hnd & _). intros Hin.
        apply (Hnd n Hin). left.
Qed.

Lemma forallb_pointwise (f g : ascii -> bool) (l : list ascii) :
  (forall c, f c = g c) -> forallb f l = forallb g l.
Proof.
  intros H. induction l as [|c l IH]; [reflexivity|]. cbn [forallb]. now rewrite H, IH.
Qed.

Section RunSegments.
Context {R : Type}.
Variable final : nat -> list ascii -> marks -> option R.
Hypothesis final_at_end : forall e m, is_Some (final e [] m).
Hypothesis final_not_at_end : forall e c s m, final e (c :: s) m = None.

Lemma run_segments (segs : list segment) (g pos : nat) (s : list ascii) (m : marks) :
  is_Some (run false (segs_code g segs) final pos s m) <-> fills segs s.
Proof.
  revert g pos s m. induction segs as [|x segs IH]; intros g pos s m.
  - cbn [segs_code run]. destruct s as [|c s].
    + split; [constructor | intros _; apply final_at_end].
    + rewrite final_not_at_end. split; [intros [y Hy]; discriminate | inversion 1].
  - destruct x as [c | n]; cbn [segs_code run].
    + destruct s as [|d s].
      * split; [intros [y Hy]; discriminate | inversion 1].
      * cbn [charset_match Chr.eqb_fold]. destruct (Ascii.eqb c d) eqn:E.
        -- apply Ascii.eqb_eq in E as <-. rewrite IH. split.
           ++ now constructor.
           ++ now inversion 1.
        -- apply Ascii.eqb_neq in E. split; [intros [y Hy]; discriminate|].
           inversion 1; congruence.
    + rewrite repeat_one_zero_Some. split.
      * intros (v & rest & -> & Hv & H). cbn [run] in H. apply IH in H.
        apply fills_hole; [|exact H].
        now rewrite <- (forallb_pointwise _ not_slash v not_slash_charset).
      * inversion 1 as [| |n' segs' v rest Hv H']; subst.
        exists v, rest. split; [reflexivity|]. split.
        -- now rewrite (forallb_pointwise _ not_slash v not_slash_charset).
        -- cbn [run]. now apply IH.
Qed.
End RunSegments.

(** X8.  For a template made of plain literal text and placeholders
    with distinct identifier names, the output of [transform_path]
    compiles, and the compiled pattern matches in full exactly the paths
    that copy the literal text and put, in place of each placeholder,
    a run of characters without ['/'], possibly empty. *)
Theorem transform_path_pattern (segs : list segment) :
  wf_template segs ->
  exists p,
    re_compile (transform_path (template_text segs)) false = Some p /\
    pat_groups p = length (hole_names segs) /\
    forall s, is_Some (re_fullmatch p s) <-> fills segs (list_ascii_of_string s).
Proof.
  intros [Hwf Hnd].
  exists (mkPattern false (segs_code 0 segs) (length (hole_names segs)) (segs_names 0 segs)).
  split; [|split; [reflexivity|]].
  - unfold re_compile, template_text.
    rewrite transform_path_sugar, !list_ascii_of_string_of_list_ascii.
    rewrite segments_transformed by exact Hwf.
    rewrite <- (app_nil_r (flat_map _ segs)).
    unfold Parse.init. rewrite parse_segments by assumption.
    cbn [Parse.loop Parse.finish Parse.st_open Parse.st_code Parse.st_groups Parse.st_names
         app Nat.add].
    now rewrite app_nil_r, rev_involutive.
  - intros s. unfold re_fullmatch, fullmatch_at. cbn [pat_code pat_ignorecase].
    apply run_segments; [eauto | reflexivity].
Qed.

Lemma transform_path_pattern_witness :
  exists p,
    re_compile
      (transform_path
         (template_text
            (map SLit (list_ascii_of_string "rooms/")
             ++ [SHole (list_ascii_of_string "roomId")]
             ++ map SLit (list_ascii_of_string "/state"))))
      false = Some p /\
    pat_groups p = 1 /\
    forall s,
      is_Some (re_fullmatch p s) <->
      fills (map SLit (list_ascii_of_string "rooms/")
             ++ [SHole (list_ascii_of_string "roomId")]
             ++ map SLit (list_ascii_of_string "/state"))
        (list_ascii_of_string s).
Proof.
  apply (transform_path_pattern
           (map SLit (list_ascii_of_string "rooms/")
            ++ [SHole (list_ascii_of_string "roomId")]
            ++ map SLit (list_ascii_of_string "/state"))).
  split.
  - cbn [list_ascii_of_string map app].
    repeat (apply Forall_cons; split; [first [reflexivity | split; reflexivity]|]).
    apply Forall_nil_2.
  - cbn. apply NoDup_singleton.
Defined.

(** ** More on registration *)

Section Order.
Variable set_iter : gset ref -> list ref.
Hypothesis set_iter_perm : forall X, set_iter X ≡ₚ elements X.

(** X9.  When each handler of the set carries an annotation whose
    path entries are strings or tuples that start with a string and a
    dict, and whose options dict is in the store, the routine returns
    normally and appends to the server's log, handler after handler
    in the order of the set and entry after entry in the order of the
    sequence, one call per entry: the annotation's verb, the
    transformed path, the options (with the overrides of the entry on
    top) completed by the [add_stopper] default, the handler bound to
    the instance and the name of the instance's class.  The logs of
    the other servers stay as they were. *)
Theorem register_log (h : heap) (methods : gset ref) (self : instance)
    (http_server : nat) (st : store) :
  (forall r, r ∈ methods ->
     exists on b,
       get_on h r = Some on /\ registrable_path (on_path on) /\
       dicts st !! on_kwargs on = Some b) ->
  exists st',
    register set_iter h methods self http_server st = (st', inr tt) /\
    server_log st' http_server =
      server_log st http_server
      ++ flat_map (method_calls h self st) (set_iter methods) /\
    (forall srv', srv' <> http_server -> servers st' !! srv' = servers st !! srv').
Proof.
  intros Hm. unfold register.
  destruct (for_each_follows http_server st (set_iter methods)
              (register_method h self http_server) (method_calls h self st) st)
    as (st' & E & [_ F] & L).
  - intros r s Hr Hs.
    destruct (Hm r) as (on & b & Hon & Hp & Hb).
    { apply elem_of_elements. now rewrite <- (set_iter_perm methods). }
    unfold method_calls. rewrite Hon. unfold dict_at at 1. rewrite Hb. cbn [default].
    now apply (register_method_follows http_server st self h r on b).
  - apply follows_refl.
  - exists st'. auto.
Qed.
End Order.

(** *** do_register *)

(** X10.  [do_register] with a string path returns normally and sends
    one call to the given server; the options that travel with it, and
    that the dict it was given holds afterwards, are the dict's
    contents with [add_stopper] set to [True] unless the dict already
    had a value for it. *)
Theorem do_register_defaults (cls : string) (http_server : nat)
    (http_method p : string) (r : ref) (method : ref * instance) (st : store) :
  exists st' kwargs,
    do_register cls http_server http_method (IStr p) r method st = (st', inr tt) /\
    server_log st' http_server =
      server_log st http_server
      ++ [mkCall http_method (client_patterns (transform_path p) kwargs) method cls] /\
    dicts st' !! r = Some kwargs /\
    kwargs !! "add_stopper"
      = Some (default (VBool true) (dict_at st r !! "add_stopper")) /\
    (forall k, k <> "add_stopper" -> kwargs !! k = dict_at st r !! k) /\
    (forall r', r' <> r -> dicts st' !! r' = dicts st !! r') /\
    (forall srv', srv' <> http_server -> servers st' !! srv' = servers st !! srv').
Proof.
  rewrite do_register_str. do 2 eexists. split; [reflexivity|].
  rewrite server_log_insert. split; [reflexivity|]. cbn [dicts servers].
  split; [apply lookup_insert_eq|]. split; [|split; [|split]].
  - rewrite add_stopper_lookup. destruct (dict_at st r !! "add_stopper"); reflexivity.
  - intros k Hk. now apply add_stopper_lookup_ne.
  - intros r' Hne. now rewrite lookup_insert_ne by congruence.
  - intros srv' Hne. now rewrite lookup_insert_ne by congruence.
Qed.

(** X11.  [do_register] with a path that is not a string raises
    [TypeError] and registers nothing; the [add_stopper] default has
    been written to the options dict by then. *)
Theorem do_register_not_a_string (cls : string) (http_server : nat)
    (http_method : string) (pat : item) (r : ref) (method : ref * instance)
    (st : store) :
  (forall p, pat <> IStr p) ->
  exists st',
    do_register cls http_server http_method pat r method st = (st', inl TypeError) /\
    servers st' = servers st /\
    dicts st' = <[r := add_stopper (dict_at st r)]> (dicts st).
Proof.
  intros Hpat. unfold do_register. rewrite bind_run. cbn [dict_setdefault].
  rewrite bind_run. destruct pat as [p | d | ]; [now destruct (Hpat p) | |];
    eexists; (split; [reflexivity|]); split; reflexivity.
Qed.

Lemma do_register_not_a_string_witness :
  exists st',
    do_register "Foo" 5 "GET" IOther 7 (1, example_self) example_store
      = (st', inl TypeError) /\
    servers st' = servers example_store /\
    dicts st' = <[7 := add_stopper (dict_at example_store 7)]> (dicts example_store).
Proof.
  apply (do_register_not_a_string "Foo" 5 "GET" IOther 7 (1, example_self) example_store).
  discriminate.
Defined.

(** *** Tuples of another shape *)

Lemma new_dict_keeps (d : dict) (st : store) (r : ref) (x : dict) :
  dicts st !! r = Some x ->
  dicts (fst (new_dict d st)) !! r = Some x.
Proof.
  intros Hr. cbn [new_dict fst dicts]. rewrite lookup_insert_ne; [exact Hr|].
  intros E. apply (is_fresh (dom (dicts st))). rewrite E. apply elem_of_dom. eauto.
Qed.

(** X12.  A tuple that does not start with a string and a dict makes
    the loop raise, [IndexError] when it has fewer than two elements
    and [TypeError] otherwise; nothing is registered for it and the
    dicts that were in the store keep their contents. *)
Theorem register_aggregate_bad_tuple (self : instance) (http_server : nat)
    (on : on_attr) (method : ref * instance) (t : list item) (e : exn) (st : store) :
  tuple_error t = Some e ->
  exists st',
    register_aggregate self http_server on method (ATuple t) st = (st', inl e) /\
    servers st' = servers st /\
    (forall r d, dicts st !! r = Some d -> dicts st' !! r = Some d).
Proof.
  intros He.
  destruct t as [|x [|y extra]]; cbn [tuple_error] in He.
  - injection He as <-. exists st. auto.
  - injection He as <-. exists st. auto.
  - destruct y as [q | ov | ].
    + assert (e = TypeError) by (destruct x; congruence). subst e.
      exists st. auto.
    + destruct x as [p | d | ]; [discriminate | |]; injection He as <-.
      * eexists. split; [reflexivity|]. split; [reflexivity|].
        intros r x Hr. cbn [dicts]. rewrite !lookup_insert_ne; [exact Hr| |];
          intros E; apply (is_fresh (dom (dicts st))); rewrite E;
          apply elem_of_dom; eauto.
      * eexists. split; [reflexivity|]. split; [reflexivity|].
        intros r x Hr. cbn [dicts]. rewrite !lookup_insert_ne; [exact Hr| |];
          intros E; apply (is_fresh (dom (dicts st))); rewrite E;
          apply elem_of_dom; eauto.
    + assert (e = TypeError) by (destruct x; congruence). subst e.
      exists st. auto.
Qed.

Lemma register_aggregate_bad_tuple_witness :
  exists st',
    register_aggregate example_self 5 (mkOn "GET" (PIter []) 7) (1, example_self)
      (ATuple [IStr "a"; IOther]) example_store = (st', inl TypeError) /\
    servers st' = servers example_store /\
    (forall r d, dicts example_store !! r = Some d -> dicts st' !! r = Some d).
Proof.
  apply (register_aggregate_bad_tuple example_self 5 (mkOn "GET" (PIter []) 7)
           (1, example_self) [IStr "a"; IOther] TypeError example_store).
  reflexivity.
Defined.

(** *** A sequence with an element that raises *)

Section Abort.
Variable set_iter : gset ref -> list ref.

(** X13.  When an element of a handler's path sequence raises, the
    routine stops there and raises the same exception, whatever the
    other handlers of the set: the handlers that the set hands out
    before that one have been registered in full, and so have the
    elements before the one that raises; the elements after it and
    the handlers after that one are not registered, and a [register]
    method of the class's own is not called. *)
Theorem register_stops_at_bad_tuple (h : heap) (methods : gset ref)
    (before after : list ref) (r : ref) (on : on_attr) (b : dict)
    (pre post : list path_aggregate) (t : list item) (e : exn)
    (self : instance) (http_server : nat) (orig : ref) (st : store) :
  set_iter methods = before ++ r :: after ->
  (forall r', r' ∈ before -> ready h st r') ->
  get_on h r = Some on ->
  on_path on = PIter (pre ++ ATuple t :: post) ->
  Forall passes pre ->
  tuple_error t = Some e ->
  dicts st !! on_kwargs on = Some b ->
  exists st',
    register set_iter h methods self http_server st = (st', inl e) /\
    register_proxy set_iter h methods (Some orig) self http_server st = (st', inl e) /\
    server_log st' http_server =
      server_log st http_server
      ++ flat_map (method_calls h self st) before
      ++ flat_map (aggregate_calls self on (r, self) b) pre /\
    (forall srv', srv' <> http_server -> servers st' !! srv' = servers st !! srv').
Proof.
  intros Hiter Hbefore Hon Hpath Hpre He Hb.
  destruct (register_methods_follows http_server st self h before st)
    as (s0 & E0 & F0 & L0); [apply follows_refl | exact Hbefore |].
  destruct (for_each_follows http_server st pre
              (register_aggregate self http_server on (r, self))
              (aggregate_calls self on (r, self) b) s0)
    as (s1 & E1 & [_ F1] & L1).
  { intros a s Ha Hs. apply register_aggregate_passes; [exact Hs | exact Hb |].
    rewrite Forall_forall in Hpre. now apply Hpre. }
  { exact F0. }
  destruct (bad_tuple_raises self http_server on (r, self) t e s1 He)
    as (s2 & E2 & S2).
  assert (Hreg : register set_iter h methods self http_server st = (s2, inl e)).
  { unfold register. rewrite Hiter, for_each_app, bind_run, E0.
    cbn [for_each]. rewrite bind_run.
    unfold register_method at 1. rewrite Hon, Hpath, for_each_app, bind_run, E1.
    cbn [for_each]. rewrite bind_run, E2. reflexivity. }
  exists s2. split; [exact Hreg|]. split; [|split].
  - cbn [register_proxy]. rewrite bind_run, Hreg. reflexivity.
  - unfold server_log at 1. rewrite S2. fold (server_log s1 http_server).
    now rewrite L1, L0, <- app_assoc.
  - intros srv' Hne. rewrite S2. now apply F1.
Qed.
End Abort.

Lemma register_stops_at_bad_tuple_witness :
  exists st',
    register elements example_heap_bad {[ 1; 3; 4 ]} example_self 5 example_store
      = (st', inl IndexError) /\
    register_proxy elements example_heap_bad {[ 1; 3; 4 ]} (Some 2)
      example_self 5 example_store = (st', inl IndexError) /\
    server_log st' 5 =
      server_log example_store 5
      ++ flat_map (method_calls example_heap_bad example_self example_store) [4]
      ++ flat_map
           (aggregate_calls example_self
              (mkOn "GET" (PIter [AStr "a"; ATuple [IStr "b"]; AStr "c"]) 7)
              (3, example_self) ∅)
           [AStr "a"] /\
    (forall srv', srv' <> 5 -> servers st' !! srv' = servers example_store !! srv').
Proof.
  apply (register_stops_at_bad_tuple elements example_heap_bad {[ 1; 3; 4 ]}
           [4] [1] 3
           (mkOn "GET" (PIter [AStr "a"; ATuple [IStr "b"]; AStr "c"]) 7) ∅
           [AStr "a"] [AStr "c"] [IStr "b"] IndexError example_self 5 2 example_store).
  - vm_compute. reflexivity.
  - intros r' Hr'. apply list_elem_of_singleton in Hr' as ->.
    exists (mkOn "POST" (PStr "d") 7), ∅.
    split; [reflexivity|]. split; [exact I | reflexivity].
  - reflexivity.
  - reflexivity.
  - repeat constructor.
  - reflexivity.
  - reflexivity.
Defined.

(** *** What servelet leaves alone *)

Section Frame.
Variable set_iter : gset ref -> list ref.

(** X14.  [servelet] changes nothing of a class but its [register]
    attribute, and nothing of the objects that exist: the other
    attributes, the name of the class and every object of the heap,
    the handlers with their annotations among them, are as before. *)
Theorem servelet_frame (h : heap) (cls : class) :
  cls_name (snd (servelet set_iter h cls)) = cls_name cls /\
  (forall name, name <> "register" ->
     cls_dict (snd (servelet set_iter h cls)) !! name = cls_dict cls !! name) /\
  (forall r o, h !! r = Some o -> fst (servelet set_iter h cls) !! r = Some o).
Proof.
  unfold servelet. destruct (0 <? size (collect_methods h cls)); cbn [fst snd].
  - split; [reflexivity|]. split.
    + intros name Hne. cbn [cls_dict]. now rewrite lookup_insert_ne by congruence.
    + intros r o Hr. rewrite lookup_insert_ne; [exact Hr|].
      intros E. apply (is_fresh (dom h)). rewrite E. apply elem_of_dom. eauto.
  - auto.
Qed.

(** X15.  On a class with an annotated handler and no [register] of
    its own, or with [register = None], the routine that [servelet]
    installs is the annotation-driven one and nothing else. *)
Theorem servelet_installs_register (h : heap) (cls : class) (name : string) (m : ref) :
  cls_dict cls !! name = Some m ->
  callable h m && hasattr_on h m = true ->
  (cls_dict cls !! "register" = None \/
   exists r0, cls_dict cls !! "register" = Some r0 /\ h !! r0 = Some PyNone) ->
  exists r',
    cls_dict (snd (servelet set_iter h cls)) !! "register" = Some r' /\
    h !! r' = None /\
    forall self http_server st,
      call_object (fst (servelet set_iter h cls)) r' self http_server st =
      register set_iter h (collect_methods h cls) self http_server st.
Proof.
  intros Hin Hc Hown.
  rewrite servelet_installs by exact (collect_methods_nonempty h cls name m Hin Hc).
  assert (Hget : dict_get_register h cls = None).
  { unfold dict_get_register. destruct Hown as [-> | (r0 & -> & ->)]; reflexivity. }
  rewrite Hget. cbn [fst snd cls_dict register_proxy].
  exists (fresh (dom h)). split; [apply lookup_insert_eq|]. split.
  - apply not_elem_of_dom, is_fresh.
  - intros self srv st. unfold call_object. now rewrite lookup_insert_eq.
Qed.
End Frame.

(** *** A register attribute that cannot be called *)

Section NotCallable.
Variable set_iter : gset ref -> list ref.
Hypothesis set_iter_perm : forall X, set_iter X ≡ₚ elements X.

(** X16.  When the [register] attribute of the class is an object
    that cannot be called and the handlers are ready, the installed
    routine makes all the annotation-driven registrations, one call
    for each path entry of each handler, and then raises [TypeError]:
    the calls are in the log of the server when it raises. *)
Theorem servelet_own_register_not_callable (h : heap) (cls : class)
    (name : string) (m r0 : ref) (on0 : option on_attr)
    (self : instance) (http_server : nat) (st : store) :
  cls_dict cls !! name = Some m ->
  callable h m && hasattr_on h m = true ->
  cls_dict cls !! "register" = Some r0 ->
  h !! r0 = Some (Plain on0) ->
  (forall r, r ∈ collect_methods h cls -> ready h st r) ->
  exists r' st1,
    cls_dict (snd (servelet set_iter h cls)) !! "register" = Some r' /\
    call_object (fst (servelet set_iter h cls)) r' self http_server st
      = (st1, inl TypeError) /\
    m ∈ set_iter (collect_methods h cls) /\
    server_log st1 http_server =
      server_log st http_server
      ++ flat_map (method_calls h self st) (set_iter (collect_methods h cls)) /\
    (forall srv', srv' <> http_server -> servers st1 !! srv' = servers st !! srv').
Proof.
  intros Hin Hc Hreg Hr0 Hready.
  rewrite servelet_installs by exact (collect_methods_nonempty h cls name m Hin Hc).
  assert (Hget : dict_get_register h cls = Some r0).
  { unfold dict_get_register. now rewrite Hreg, Hr0. }
  rewrite Hget. cbn [fst snd cls_dict register_proxy].
  destruct (register_methods_follows http_server st self h
              (set_iter (collect_methods h cls)) st)
    as (st1 & E & [_ Hs] & L).
  { apply follows_refl. }
  { now apply ready_set_iter. }
  exists (fresh (dom h)), st1. split; [apply lookup_insert_eq|]. split; [|split; [|split]].
  - unfold call_object at 1. rewrite lookup_insert_eq, bind_run.
    unfold register. rewrite E. unfold call_object. now rewrite Hr0.
  - rewrite (set_iter_perm (collect_methods h cls)).
    apply elem_of_elements, elem_of_collect_methods. eauto.
  - exact L.
  - exact Hs.
Qed.
End NotCallable.

(** *** Names that share a function *)

(** X17.  Binding one more name to an object that the class already
    binds does not change the set of handlers: a function is
    collected once, however many names it has. *)
Theorem collect_methods_alias (h : heap) (cn : string) (d : gmap string ref)
    (name alias : string) (r : ref) :
  d !! name = Some r ->
  d !! alias = None ->
  collect_methods h (mkClass cn (<[alias := r]> d)) = collect_methods h (mkClass cn d).
Proof.
  intros Hname Halias. apply set_eq. intros x.
  rewrite !elem_of_collect_methods. cbn [cls_dict]. split.
  - intros (n & Hn & Hc). destruct (decide (alias = n)) as [<-|Hne].
    + rewrite lookup_insert_eq in Hn. injection Hn as <-. eauto.
    + rewrite lookup_insert_ne in Hn by exact Hne. eauto.
  - intros (n & Hn & Hc). exists n. split; [|exact Hc].
    rewrite lookup_insert_ne; [exact Hn | congruence].
Qed.

Lemma servelet_installs_register_witness :
  exists r',
    cls_dict (snd (servelet elements example_heap example_class)) !! "register" = Some r' /\
    example_heap !! r' = None /\
    forall self http_server st,
      call_object (fst (servelet elements example_heap example_class)) r'
        self http_server st =
      register elements example_heap (collect_methods example_heap example_class)
        self http_server st.
Proof.
  apply (servelet_installs_register elements example_heap example_class "on_get" 1).
  - reflexivity.
  - reflexivity.
  - left. reflexivity.
Defined.

Lemma example_plain_register_ready (r : ref) :
  r ∈ collect_methods example_heap_plain_register example_class_two ->
  ready example_heap_plain_register example_store_two r.
Proof.
  intros Hr. pose proof (example_class_two_methods _ _ Hr) as [->|[->| ->]].
  - exists (mkOn "GET" (PStr "rooms/{id}") 7), ∅.
    split; [reflexivity|]. split; [exact I | reflexivity].
  - eexists _, _. split; [reflexivity|]. split; [|reflexivity].
    repeat constructor.
  - apply elem_of_collect_methods in Hr as (n & _ & Hc). discriminate Hc.
Qed.

Lemma servelet_own_register_not_callable_witness :
  exists r' st1,
    cls_dict (snd (servelet elements example_heap_plain_register example_class_two))
      !! "register" = Some r' /\
    call_object (fst (servelet elements example_heap_plain_register example_class_two)) r'
      example_self 5 example_store_two = (st1, inl TypeError) /\
    1 ∈ elements (collect_methods example_heap_plain_register example_class_two) /\
    server_log st1 5 =
      server_log example_store_two 5
      ++ flat_map (method_calls example_heap_plain_register example_self example_store_two)
           (elements (collect_methods example_heap_plain_register example_class_two)) /\
    (forall srv', srv' <> 5 -> servers st1 !! srv' = servers example_store_two !! srv').
Proof.
  apply (servelet_own_register_not_callable elements (fun X => reflexivity _)
           example_heap_plain_register example_class_two "on_get" 1 2 None
           example_self 5 example_store_two).
  - reflexivity.
  - reflexivity.
  - reflexivity.
  - reflexivity.
  - exact example_plain_register_ready.
Defined.

Lemma collect_methods_alias_witness :
  collect_methods example_heap (mkClass "Foo" (<["alias" := 1]> {[ "on_get" := 1 ]}))
  = collect_methods example_heap (mkClass "Foo" {[ "on_get" := 1 ]}).
Proof.
  apply (collect_methods_alias example_heap "Foo" {[ "on_get" := 1 ]} "on_get" "alias" 1);
    reflexivity.
Defined.

(** *** Annotating a function *)

(** X18.  Applying a marker to a function stores the marker as the
    function's annotation and changes nothing else: the function
    stays callable and behaves as before, and the other objects are
    untouched.  A second marker replaces the first. *)
Theorem On_call_function (marker marker' : on_attr) (method : ref)
    (on0 : option on_attr) (code : instance -> nat -> M unit) (h : heap) :
  h !! method = Some (Function on0 code) ->
  exists h',
    On_call marker method h = Some h' /\
    get_on h' method = Some marker /\
    callable h' method = true /\
    (forall self http_server,
        call_object h' method self http_server = call_object h method self http_server) /\
    (forall r, r <> method -> h' !! r = h !! r) /\
    On_call marker' method h' = On_call marker' method h.
Proof.
  intros Hm. unfold On_call. rewrite Hm. eexists. split; [reflexivity|].
  unfold get_on, callable, call_object. rewrite !lookup_insert_eq, Hm.
  split; [reflexivity|]. split; [reflexivity|]. split; [reflexivity|]. split.
  - intros r Hne. now rewrite lookup_insert_ne by congruence.
  - now rewrite insert_insert_eq.
Qed.

Lemma On_call_function_witness :
  exists h',
    On_call (mkOn "PUT" (PStr "x") 8) 1 example_heap = Some h' /\
    get_on h' 1 = Some (mkOn "PUT" (PStr "x") 8) /\
    callable h' 1 = true /\
    (forall self http_server,
        call_object h' 1 self http_server = call_object example_heap 1 self http_server) /\
    (forall r, r <> 1 -> h' !! r = example_heap !! r) /\
    On_call (mkOn "POST" (PStr "y") 9) 1 h' = On_call (mkOn "POST" (PStr "y") 9) 1 example_heap.
Proof.
  apply (On_call_function (mkOn "PUT" (PStr "x") 8) (mkOn "POST" (PStr "y") 9) 1
           (Some (mkOn "GET" (PStr "rooms/{id}") 7)) (fun _ _ => mret tt) example_heap).
  reflexivity.
Defined.

(** *** From the annotation to the server *)

Lemma on_constructor_is_On (ctor : path_arg -> dict -> M on_attr) (verb : string) :
  (ctor, verb) ∈ on_constructors -> ctor = _On verb.
Proof.
  unfold on_constructors. rewrite !elem_of_cons, elem_of_nil.
  intros [E|[E|[E|[E|[E|[]]]]]]; injection E as -> ->; reflexivity.
Qed.

(** The handlers of a class after one of its functions is annotated:
    that function and those it had. *)
Lemma collect_methods_annotated (h : heap) (cls : class) (name : string) (r : ref)
    (on0 : option on_attr) (marker : on_attr) (code : instance -> nat -> M unit)
    (x : ref) :
  h !! r = Some (Function on0 code) ->
  cls_dict cls !! name = Some r ->
  x ∈ collect_methods (<[r := Function (Some marker) code]> h) cls <->
  x = r \/ (x <> r /\ x ∈ collect_methods h cls).
Proof.
  intros Hr Hname. rewrite !elem_of_collect_methods.
  unfold callable, hasattr_on, get_on. split.
  - intros (n & Hn & Hc). destruct (decide (x = r)) as [->|Hne]; [now left|].
    right. split; [exact Hne|]. exists n. split; [exact Hn|].
    now rewrite lookup_insert_ne in Hc by congruence.
  - intros [->|[Hne (n & Hn & Hc)]].
    + exists name. split; [exact Hname|]. now rewrite lookup_insert_eq.
    + exists n. split; [exact Hn|]. now rewrite lookup_insert_ne by congruence.
Qed.

Section EndToEnd.
Variable set_iter : gset ref -> list ref.
Hypothesis set_iter_perm : forall X, set_iter X ≡ₚ elements X.

(** X19.  A function annotated through one of the five constructors
    of [on] and bound to a name in a class passed to [servelet],
    whatever else the class holds, is registered by the installed
    routine with the verb of the constructor, each path of the
    annotation transformed, the options given to the constructor
    (under the overrides of the entry) completed by the [add_stopper]
    default, the function bound to the instance, and the name of the
    instance's class.  When the other handlers of the class are ready,
    the routine logs the calls of all the handlers, this one among
    them, and then calls the [register] of the class's own if there is
    one. *)
Theorem annotated_class_registers (ctor : path_arg -> dict -> M on_attr)
    (verb : string) (path : path_arg) (kwargs : dict) (h : heap) (r : ref)
    (on0 : option on_attr) (code : instance -> nat -> M unit)
    (cls : class) (name : string)
    (self : instance) (http_server : nat) (st : store) :
  (ctor, verb) ∈ on_constructors ->
  h !! r = Some (Function on0 code) ->
  cls_dict cls !! name = Some r ->
  passes_path path ->
  (forall r', r' ∈ collect_methods h cls -> r' <> r -> ready h st r') ->
  exists marker st1 h1,
    ctor path kwargs st = (st1, inr marker) /\
    on_method marker = verb /\
    on_path marker = path /\
    On_call marker r h = Some h1 /\
    exists r' st2,
      cls_dict (snd (servelet set_iter h1 cls)) !! "register" = Some r' /\
      call_object (fst (servelet set_iter h1 cls)) r' self http_server st1 =
        match dict_get_register h1 cls with
        | None => (st2, inr tt)
        | Some orig => call_object h1 orig self http_server st2
        end /\
      server_log st2 http_server =
        server_log st http_server
        ++ flat_map (method_calls h1 self st1) (set_iter (collect_methods h1 cls)) /\
      r ∈ set_iter (collect_methods h1 cls) /\
      method_calls h1 self st1 r = path_calls self marker (r, self) kwargs /\
      (forall x, x ∈ collect_methods h cls -> x <> r ->
         method_calls h1 self st1 x = method_calls h self st x).
Proof.
  intros Hctor Hr Hname Hpath Hothers.
  apply on_constructor_is_On in Hctor as ->.
  set (k := fresh (dom (dicts st))).
  set (marker := mkOn verb path k).
  set (st1 := mkStore (<[k := kwargs]> (dicts st)) (servers st)).
  set (h1 := <[r := Function (Some marker) code]> h).
  exists marker, st1, h1. split; [reflexivity|]. split; [reflexivity|].
  split; [reflexivity|]. split; [unfold On_call; now rewrite Hr|].
  assert (Hon : get_on h1 r = Some marker).
  { unfold get_on, h1. now rewrite lookup_insert_eq. }
  assert (Hcall : callable h1 r && hasattr_on h1 r = true).
  { unfold hasattr_on. rewrite Hon. unfold callable, h1. now rewrite lookup_insert_eq. }
  assert (Hk : forall d x, dicts st !! x = Some d -> dicts st1 !! x = Some d).
  { intros d x Hx. unfold st1. cbn [dicts]. rewrite lookup_insert_ne; [exact Hx|].
    intros <-. apply (is_fresh (dom (dicts st))). fold k. apply elem_of_dom. eauto. }
  assert (Hget : forall x, x <> r -> get_on h1 x = get_on h x).
  { intros x Hne. unfold get_on, h1. now rewrite lookup_insert_ne by congruence. }
  assert (Hready : forall x, x ∈ collect_methods h1 cls -> ready h1 st1 x).
  { intros x Hx.
    apply (collect_methods_annotated h cls name r on0 marker code x Hr Hname) in Hx
      as [->|[Hne Hx]].
    - exists marker, kwargs. split; [exact Hon|]. split; [exact Hpath|].
      unfold st1. cbn [dicts marker on_kwargs]. apply lookup_insert_eq.
    - destruct (Hothers x Hx Hne) as (on & b & Hgo & Hp & Hb).
      exists on, b. split; [now rewrite Hget|]. split; [exact Hp|]. now apply Hk. }
  rewrite servelet_installs by exact (collect_methods_nonempty h1 cls name r Hname Hcall).
  cbn [fst snd cls_dict].
  destruct (register_methods_follows http_server st1 self h1
              (set_iter (collect_methods h1 cls)) st1)
    as (st2 & E & _ & L).
  { apply follows_refl. }
  { now apply ready_set_iter. }
  exists (fresh (dom h1)), st2. split; [apply lookup_insert_eq|].
  split; [|split; [|split; [|split]]].
  - unfold call_object at 1. rewrite lookup_insert_eq.
    destruct (dict_get_register h1 cls) as [orig|]; cbn [register_proxy].
    + rewrite bind_run. unfold register. now rewrite E.
    + exact E.
  - exact L.
  - rewrite (set_iter_perm (collect_methods h1 cls)).
    apply elem_of_elements, elem_of_collect_methods. eauto.
  - unfold method_calls. rewrite Hon. unfold st1, dict_at. cbn [dicts marker on_kwargs].
    now rewrite lookup_insert_eq.
  - intros x Hx Hne. destruct (Hothers x Hx Hne) as (on & b & Hgo & _ & Hb).
    unfold method_calls. rewrite (Hget x Hne), Hgo. f_equal.
    unfold dict_at. now rewrite (Hk b (on_kwargs on) Hb), Hb.
Qed.
End EndToEnd.

Lemma example_unannotated_ready (r : ref) :
  r ∈ collect_methods example_heap_unannotated example_class_two -> r <> 3 ->
  ready example_heap_unannotated example_store r.
Proof.
  intros Hr Hne. pose proof (example_class_two_methods _ _ Hr) as [->|[->| ->]].
  - exists (mkOn "GET" (PStr "rooms/{id}") 7), ∅.
    split; [reflexivity|]. split; [exact I | reflexivity].
  - now destruct Hne.
  - apply elem_of_collect_methods in Hr as (n & _ & Hc). discriminate Hc.
Qed.

Lemma annotated_class_registers_witness :
  exists marker st1 h1,
    on.put (PIter [ATuple [IStr "foo/{id}"; IDict {[ "x" := VInt 1 ]}]])
      {[ "x" := VInt 0; "y" := VInt 2 ]} example_store = (st1, inr marker) /\
    on_method marker = "PUT" /\
    on_path marker = PIter [ATuple [IStr "foo/{id}"; IDict {[ "x" := VInt 1 ]}]] /\
    On_call marker 3 example_heap_unannotated = Some h1 /\
    exists r' st2,
      cls_dict (snd (servelet elements h1 example_class_two)) !! "register" = Some r' /\
      call_object (fst (servelet elements h1 example_class_two)) r'
        example_self 5 st1 =
        match dict_get_register h1 example_class_two with
        | None => (st2, inr tt)
        | Some orig => call_object h1 orig example_self 5 st2
        end /\
      server_log st2 5 =
        server_log example_store 5
        ++ flat_map (method_calls h1 example_self st1)
             (elements (collect_methods h1 example_class_two)) /\
      3 ∈ elements (collect_methods h1 example_class_two) /\
      method_calls h1 example_self st1 3 =
        path_calls example_self marker (3, example_self)
          {[ "x" := VInt 0; "y" := VInt 2 ]} /\
      (forall x, x ∈ collect_methods example_heap_unannotated example_class_two ->
         x <> 3 ->
         method_calls h1 example_self st1 x =
         method_calls example_heap_unannotated example_self example_store x).
Proof.
  apply (annotated_class_registers elements (fun X => reflexivity _)
           on.put "PUT" (PIter [ATuple [IStr "foo/{id}"; IDict {[ "x" := VInt 1 ]}]])
           {[ "x" := VInt 0; "y" := VInt 2 ]}
           example_heap_unannotated 3 None (fun _ _ => mret tt)
           example_class_two "on_put" example_self 5 example_store).
  - right. right. left.
  - reflexivity.
  - reflexivity.
  - repeat constructor.
  - exact example_unannotated_ready.
Defined.

Lemma register_log_witness :
  exists st',
    register elements example_heap {[ 1 ]} example_self 5 example_store = (st', inr tt) /\
    server_log st' 5 =
      server_log example_store 5
      ++ flat_map (method_calls example_heap example_self example_store) (elements ({[ 1 ]} : gset ref)) /\
    (forall srv', srv' <> 5 -> servers st' !! srv' = servers example_store !! srv').
Proof.
  apply (register_log elements (fun X => reflexivity _) example_heap {[ 1 ]}
           example_self 5 example_store).
  intros r Hr. apply elem_of_singleton in Hr as ->.
  exists (mkOn "GET" (PStr "rooms/{id}") 7), ∅.
  split; [reflexivity|]. split; [exact I | reflexivity].
Defined.

Lemma transform_path_without_placeholder_witness :
  transform_path "a{}b{c d}{" = "a{}b{c d}{".
Proof.
  apply (transform_path_without_placeholder "a{}b{c d}{").
  cbn [list_ascii_of_string].
  repeat (apply no_placeholder_cons; [reflexivity|]).
  intros a b E. symmetry in E. apply app_eq_nil in E as [_ ->]. reflexivity.
Defined.
